(** * brackets-viewer: the bracket rendering engine of [src/main.ts]

    A shallow embedding of the [BracketsViewer] class.  The viewer object and
    the identity of the DOM elements it creates are an explicit state; a
    thrown exception is an outcome that keeps the state reached so far; the
    document fragment built by [render] is a tree of plain records. *)

From Stdlib Require Import ZArith String List Bool Lia.
From stdpp Require Import base option list gmap strings pretty.

Local Open Scope Z_scope.
Local Open Scope string_scope.
Local Open Scope list_scope.

(** ** Data model (the interfaces of [brackets-model] as [main.ts] reads them) *)

(** [Result = 'win' | 'draw' | 'loss'] *)
Inductive Result := Win | Draw | Loss.

Global Instance Result_eq_dec : EqDecision Result.
Proof. solve_decision. Defined.

Module ParticipantResult.
(** [id: number | null], the other fields are optional ([undefined]). *)
Record t := mk {
  id : option Z;
  position : option Z;
  score : option Z;
  result : option Result;
}.
End ParticipantResult.

Module Match.
Record t := mk {
  id : Z;
  status : Z;
  stage_id : Z;
  group_id : Z;
  round_id : Z;
  number : Z;
  child_count : Z;
  opponent1 : option ParticipantResult.t;   (* [null] is a BYE *)
  opponent2 : option ParticipantResult.t;
}.
End Match.

Module Stage.
(** [type] is a string at run time; [settings.skipFirstRound] is optional. *)
Record t := mk {
  id : Z;
  name : string;
  type : string;
  skipFirstRound : option bool;
}.
End Stage.

Module Participant.
Record t := mk {
  id : Z;
  name : string;
}.
End Participant.

Module ParticipantImage.
Record t := mk {
  participantId : Z;
  imageUrl : string;
}.
End ParticipantImage.

Module ViewerData.
Record t := mk {
  stages : list Stage.t;
  matches : list Match.t;
  participants : list Participant.t;
}.
End ViewerData.

(** [RankingItem]: an object enumerated with [for (const prop in item)]. *)
Definition RankingItem := list (string * Z).

Inductive Placement := PlacementNone | PlacementBefore | PlacementAfter.
Inductive BracketType := SingleBracket | WinnerBracket | LoserBracket | FinalGroup.
Inductive FinalType := ConsolationFinal | GrandFinal.

Global Instance Placement_eq_dec : EqDecision Placement.
Proof. solve_decision. Defined.
Global Instance BracketType_eq_dec : EqDecision BracketType.
Proof. solve_decision. Defined.
Global Instance FinalType_eq_dec : EqDecision FinalType.
Proof. solve_decision. Defined.

Module Config.
Record t := mk {
  participantOriginPlacement : Placement;
  separatedChildCountLabel : bool;
  showSlotsOrigin : bool;
  showLowerBracketSlotsOrigin : bool;
  highlightParticipantOnHover : bool;
}.
End Config.

(** [Partial<Config>]: every option may be omitted; [selector] is only read
    by [findRoot]. *)
Module PartialConfig.
Record t := mk {
  selector : option string;
  participantOriginPlacement : option Placement;
  separatedChildCountLabel : option bool;
  showSlotsOrigin : option bool;
  showLowerBracketSlotsOrigin : option bool;
  highlightParticipantOnHover : option bool;
}.
End PartialConfig.

(** ** Exceptions and the viewer state *)

Inductive Exn :=
| Error (message : string)          (* [throw Error(message)] *)
| TypeError (access : string).      (* a property read on [undefined] *)

Inductive Outcome (A : Type) :=
| Returned (a : A)
| Thrown (e : Exn).
Arguments Returned {A} a.
Arguments Thrown {A} e.

(** An [HTMLElement] that the viewer keeps a reference to is known by the
    rank of its creation. *)
Definition Handle := nat.

Module Viewer.
(** The fields of [BracketsViewer], and the number of elements created so
    far.  [config] and [skipFirstRound] are declared without initial value
    and are written by [render] and [renderStage] before they are read. *)
Record t := mk {
  participantRefs : gmap Z (list Handle);
  participants : list Participant.t;
  participantImages : list ParticipantImage.t;
  config : Config.t;
  skipFirstRound : bool;
  created : nat;
}.
End Viewer.

Definition M (A : Type) : Type := Viewer.t → Outcome A * Viewer.t.

Definition ret {A} (a : A) : M A := λ v, (Returned a, v).
Definition throw {A} (e : Exn) : M A := λ v, (Thrown e, v).
Definition bind {A B} (m : M A) (k : A → M B) : M B :=
  λ v, match m v with
       | (Returned a, v') => k a v'
       | (Thrown e, v') => (Thrown e, v')
       end.
Definition get : M Viewer.t := λ v, (Returned v, v).
Definition put (v : Viewer.t) : M unit := λ _, (Returned tt, v).
Definition modify (f : Viewer.t → Viewer.t) : M unit := λ v, (Returned tt, f v).

Declare Scope viewer_scope.
Delimit Scope viewer_scope with viewer.
Notation "'let!' x ':=' m 'in' k" := (bind m (λ x, k))
  (at level 10, x name, m at level 100, k at level 200,
   format "'[v' 'let!'  x  ':='  m  'in' '/' k ']'") : viewer_scope.
Notation "m ';;' k" := (bind m (λ _, k))
  (at level 100, k at level 200, right associativity) : viewer_scope.
Local Open Scope viewer_scope.

(** [for (const x of xs) body(x)], the loop state threaded through. *)
Fixpoint forEach {A S} (body : S → A → M S) (s : S) (xs : list A) : M S :=
  match xs with
  | [] => ret s
  | x :: xs' => let! s' := body s x in forEach body s' xs'
  end.

(** [xs[i].…]: reading a property of a missing array element throws. *)
Definition index {A} (what : string) (xs : list A) (i : nat) : M A :=
  match xs !! i with
  | Some x => ret x
  | None => throw (TypeError what)
  end.

Module ViewerOps.
Import Viewer.
Definition set_participantRefs (r : gmap Z (list Handle)) (v : t) : t :=
  mk r (participants v) (participantImages v) (config v) (skipFirstRound v) (created v).
Definition set_participants (p : list Participant.t) (v : t) : t :=
  mk (participantRefs v) p (participantImages v) (config v) (skipFirstRound v) (created v).
Definition set_participantImages (i : list ParticipantImage.t) (v : t) : t :=
  mk (participantRefs v) (participants v) i (config v) (skipFirstRound v) (created v).
Definition set_config (c : Config.t) (v : t) : t :=
  mk (participantRefs v) (participants v) (participantImages v) c (skipFirstRound v) (created v).
Definition set_skipFirstRound (b : bool) (v : t) : t :=
  mk (participantRefs v) (participants v) (participantImages v) (config v) b (created v).
Definition set_created (n : nat) (v : t) : t :=
  mk (participantRefs v) (participants v) (participantImages v) (config v) (skipFirstRound v) n.
End ViewerOps.
Import ViewerOps.

(** [document.createElement] for an element the viewer may keep a reference
    to: the element is known by the number of elements created before it. *)
Definition createElement : M Handle :=
  λ v, (Returned (Viewer.created v), set_created (S (Viewer.created v)) v).

(** ** The document fragment

    What the functions of [./dom] build is out of the engine's scope; an
    element is the record of what [main.ts] hands to them. *)

(** Modelled from the spec: the [Connection] descriptor of [./types], which
    is not among the sources.  Section 4.7: "a descriptor of which sides of
    the match's visual box should carry a connector toward the previous round
    and/or toward a following final group", intermediate rounds being also
    connected "forward to one match of the next round". *)
Record Connection := mkConnection {
  connectPrevious : bool;
  connectNext : bool;
  connectFinal : bool;
}.

Module Dom.
Record Name := mkName {
  innerText : string;
  image : option string;              (* [addParticipantImage] *)
  hint : option string;               (* [setupHint] *)
  origin : option (string * Placement);   (* [addParticipantOrigin] *)
}.

Record ParticipantElement := mkParticipant {
  handle : Handle;
  participantId : option Z;           (* [createParticipantContainer] *)
  title : option string;
  name : Name;
  result : string;
  outcome : option ParticipantResult.t;   (* [setupWin], [setupLoss] *)
}.

Record MatchElement := mkMatch {
  matchId : Z;
  status : Z;
  label : option (string * string);   (* [createMatchLabel] *)
  childCountLabel : option string;    (* [createChildCountLabel] *)
  participant1 : ParticipantElement;
  participant2 : ParticipantElement;
  connection : option Connection;     (* [setupConnection] *)
}.

Record RoundElement := mkRound {
  roundId : Z;
  roundName : string;
  matches : list MatchElement;
}.

Record Cell := mkCell {
  cellHandle : Handle;
  cellText : string;
}.

Record Table := mkTable {
  headers : list RankingItem;         (* [createRankingHeaders] *)
  rows : list (list Cell);
}.

Record GroupElement := mkGroup {
  groupId : Z;
  groupName : string;
  rounds : list RoundElement;
  ranking : Table;
}.

(** The children of the fragment. [Bracket] is the element made by
    [createBracketContainer], the one [querySelector('.bracket')] finds. *)
Inductive Node :=
| Title (text : string)
| RoundRobin (stageId : Z) (groups : list GroupElement)
| Bracket (groupId : Z) (rounds : list RoundElement).

Definition emptyName : Name := mkName "" None None None.
End Dom.

(** ** The collaborators of [main.ts] that are not among the sources *)

(** Where the occupant of a slot comes from (section 4.4). *)
Inductive Upstream :=
| PreviousRound          (* the previous round of the same bracket *)
| WinnerBracketDrop.     (* a loser dropped from the winner bracket *)

Inductive Slot := Slot1 | Slot2.

Global Instance Slot_eq_dec : EqDecision Slot.
Proof. solve_decision. Defined.

Definition otherSlot (s : Slot) : Slot :=
  match s with Slot1 => Slot2 | Slot2 => Slot1 end.

Definition slotPosition (s : Slot) : Z :=
  match s with Slot1 => 1 | Slot2 => 2 end.

(** [OriginHint]: [undefined], or a function of the position. *)
Definition OriginHint := option (Z → string).

(** [./lang]: the labels and phrases.  [originPhrase] composes the phrase
    of a hint; [freshDropOdd] is the slot that receives the loser dropped from
    the winner bracket in the odd rounds of a loser bracket, which section 4.4
    leaves open. *)
Class Lang := {
  BYE : string;
  getGroupName : nat → string;
  getRoundName : nat → nat → string;
  getWinnerBracketRoundName : nat → nat → string;
  getLoserBracketRoundName : nat → nat → string;
  getMatchLabel : Z → nat → nat → BracketType → string;
  getFinalMatchLabel : FinalType → nat → nat → string;
  getFinalOriginHint : FinalType → nat → OriginHint;
  getMatchStatus : Z → string;
  bestOfX : Z → string;
  originPhrase : Upstream → Z → string;
  freshDropOdd : Slot;
}.

(** [./helpers], but for [splitBy]. [findRoot] gives the exception it throws,
    if any. *)
Class Helpers := {
  getRanking : list Match.t → list RankingItem;
  getOriginAbbreviation : BracketType → bool → option nat → string;
  findRoot : option string → option Exn;
}.

(** [./dom], but for [getBracketConnection]. *)
Class DomBackend := {
  getFinalConnection : FinalType → nat → nat → Connection;
}.

(** Modelled from the spec: [splitBy] of [./helpers], which is not among the
    sources.  Section 4.1: "returns an ordered sequence of ordered
    sub-sequences, each containing all records sharing a key value, in
    first-occurrence order of that key", "preserving input order within each
    partition". *)
Fixpoint splitInsert {A} (key : A → Z) (x : A) (groups : list (list A)) : list (list A) :=
  match groups with
  | [] => [[x]]
  | g :: gs =>
      match g with
      | y :: _ => if decide (key y = key x) then (g ++ [x]) :: gs
                  else g :: splitInsert key x gs
      | [] => g :: splitInsert key x gs
      end
  end.

Definition splitBy {A} (array : list A) (key : A → Z) : list (list A) :=
  fold_left (λ groups x, splitInsert key x groups) array [].

(** Modelled from the spec: [getBracketConnection] of [./dom], which is not
    among the sources.  Section 4.7: "round 1 of any bracket never connects
    backward", "the last round of a winner bracket connects forward to a final
    group only if connectToFinal is asserted", "intermediate rounds always
    connect backward [...] and forward to one match of the next round".  The
    spec does not say whether the last round connects backward and whether
    round 1 connects forward; both do here, when there is such a round. *)
Definition getBracketConnection (roundNumber roundCount : nat) (matchLocation : BracketType)
    (connectFinal : option bool) : Connection :=
  {| connectPrevious := negb (roundNumber =? 1)%nat;
     connectNext := (roundNumber <? roundCount)%nat;
     connectFinal := (roundNumber =? roundCount)%nat && bool_decide (connectFinal = Some true) |}.

Section Engine.
Context `{Lang, Helpers, DomBackend}.

(** Modelled from the spec: [getOriginHint] of [./lang], which is not among
    the sources.  Section 4.4: no hint for the first round unless
    [skipFirstRound] "makes round 1 itself a derived round"; otherwise "a
    function from slot-position (1|2) to a short phrase"; in a loser
    bracket, "round parity determines whether incoming slot 1 or slot 2 is
    the fresh drop from winner bracket", the other slot being fed by "the
    previous loser-bracket round". *)
Definition freshDropSlot (roundNumber : nat) : Slot :=
  if Nat.odd roundNumber then freshDropOdd else otherSlot freshDropOdd.

Definition upstream (matchLocation : BracketType) (roundNumber : nat) (position : Z) : Upstream :=
  match matchLocation with
  | LoserBracket =>
      if decide (position = slotPosition (freshDropSlot roundNumber))
      then WinnerBracketDrop else PreviousRound
  | _ => PreviousRound
  end.

Definition getOriginHint (roundNumber roundCount : nat) (skipFirstRound : bool)
    (matchLocation : BracketType) : OriginHint :=
  if (roundNumber =? 1)%nat && negb skipFirstRound then None
  else Some (λ position, originPhrase (upstream matchLocation roundNumber position) position).

(** ** [main.ts] *)

Definition hoverError (participantId : Z) : Exn :=
  Error ("The participant (id: " +:+ pretty participantId
         +:+ ") does not exist in the participants table.").

(** [setupMouseHover]. The two listeners it registers only read [refs]. *)
Definition setupMouseHover (participantId : Z) (element : Handle) : M unit :=
  let! v := get in
  if negb (Config.highlightParticipantOnHover (Viewer.config v)) then ret tt
  else
    match Viewer.participantRefs v !! participantId with
    | None => throw (hoverError participantId)
    | Some refs =>
        modify (set_participantRefs
                  (<[participantId := refs ++ [element]]> (Viewer.participantRefs v)))
    end.

Definition addParticipantOrigin (nameContainer : Dom.Name) (text : string)
    (placement : Placement) : Dom.Name :=
  Dom.mkName (Dom.innerText nameContainer) (Dom.image nameContainer)
             (Dom.hint nameContainer) (Some (text, placement)).

Definition setupHint (nameContainer : Dom.Name) (text : string) : Dom.Name :=
  Dom.mkName (Dom.innerText nameContainer) (Dom.image nameContainer)
             (Some text) (Dom.origin nameContainer).

Definition addParticipantImage (nameContainer : Dom.Name) (url : string) : Dom.Name :=
  Dom.mkName (Dom.innerText nameContainer) (Some url)
             (Dom.hint nameContainer) (Dom.origin nameContainer).

Definition setInnerText (nameContainer : Dom.Name) (text : string) : Dom.Name :=
  Dom.mkName text (Dom.image nameContainer)
             (Dom.hint nameContainer) (Dom.origin nameContainer).

(** [renderParticipantOrigin] *)
Definition renderParticipantOrigin (nameContainer : Dom.Name)
    (participant : ParticipantResult.t) (matchLocation : option BracketType)
    (roundNumber : option nat) : M Dom.Name :=
  match ParticipantResult.position participant, matchLocation with
  | Some position, Some location =>
      let! v := get in
      let config := Viewer.config v in
      if bool_decide (Config.participantOriginPlacement config = PlacementNone)
      then ret nameContainer
      else if negb (Config.showSlotsOrigin config) then ret nameContainer
      else if negb (Config.showLowerBracketSlotsOrigin config)
              && bool_decide (location = LoserBracket) then ret nameContainer
      else
        let abbreviation :=
          getOriginAbbreviation location (Viewer.skipFirstRound v) roundNumber in
        let origin := abbreviation +:+ pretty position in
        ret (addParticipantOrigin nameContainer origin
               (Config.participantOriginPlacement config))
  | _, _ => ret nameContainer
  end.

(** [renderHint] *)
Definition renderHint (nameContainer : Dom.Name) (participant : ParticipantResult.t)
    (originHint : OriginHint) (matchLocation : option BracketType) : M Dom.Name :=
  match originHint, ParticipantResult.position participant with
  | Some hint, Some position =>
      let! v := get in
      let config := Viewer.config v in
      if negb (Config.showSlotsOrigin config) then ret nameContainer
      else if negb (Config.showLowerBracketSlotsOrigin config)
              && bool_decide (matchLocation = Some LoserBracket) then ret nameContainer
      else ret (setupHint nameContainer (hint position))
  | _, _ => ret nameContainer
  end.

(** [renderParticipantImage] *)
Definition renderParticipantImage (nameContainer : Dom.Name) (participantId : Z)
    : M Dom.Name :=
  let! v := get in
  match List.find (λ item, bool_decide (ParticipantImage.participantId item = participantId))
                  (Viewer.participantImages v) with
  | Some found => ret (addParticipantImage nameContainer (ParticipantImage.imageUrl found))
  | None => ret nameContainer
  end.

(** [this.participants.find(item => item.id === id)], [id] possibly [null]. *)
Definition findParticipant (participants : list Participant.t) (id : option Z)
    : option Participant.t :=
  match id with
  | Some i => List.find (λ item, bool_decide (Participant.id item = i)) participants
  | None => None
  end.

Definition scoreText (participant : ParticipantResult.t) : string :=
  match ParticipantResult.score participant with
  | None => "-"
  | Some score => pretty score
  end.

(** [renderParticipant], on the three containers of a participant. *)
Definition renderParticipant (containers : Dom.ParticipantElement)
    (participant : ParticipantResult.t) (originHint : OriginHint)
    (matchLocation : option BracketType) (roundNumber : option nat)
    : M Dom.ParticipantElement :=
  let! v := get in
  let! named :=
    match findParticipant (Viewer.participants v) (ParticipantResult.id participant) with
    | Some found =>
        let name := setInnerText (Dom.name containers) (Participant.name found) in
        let! name := renderParticipantImage name (Participant.id found) in
        let! name := renderParticipantOrigin name participant matchLocation roundNumber in
        ret (Some (Participant.name found), name)
    | None =>
        let! name := renderHint (Dom.name containers) participant originHint matchLocation in
        ret (Dom.title containers, name)
    end in
  ret (Dom.mkParticipant (Dom.handle containers) (Dom.participantId containers)
         (fst named) (snd named) (scoreText participant) (Some participant)).

(** [createParticipant] *)
Definition createParticipant (participant : option ParticipantResult.t)
    (originHint : OriginHint) (matchLocation : option BracketType)
    (roundNumber : option nat) : M Dom.ParticipantElement :=
  let! element := createElement in
  let containers :=
    Dom.mkParticipant element (participant ≫= ParticipantResult.id) None
                      Dom.emptyName "" None in
  let! containers :=
    match participant with
    | None =>
        ret (Dom.mkParticipant element None None (setInnerText Dom.emptyName BYE) "" None)
    | Some participant =>
        renderParticipant containers participant originHint matchLocation roundNumber
    end in
  match participant ≫= ParticipantResult.id with
  | Some id => setupMouseHover id element
  | None => ret tt
  end;;
  ret containers.

(** [createMatch] *)
Definition createMatch (match_ : Match.t) (matchLocation : option BracketType)
    (connection : option Connection) (label : option string) (originHint : OriginHint)
    (roundNumber : option nat) : M Dom.MatchElement :=
  let! participant1 :=
    createParticipant (Match.opponent1 match_) originHint matchLocation roundNumber in
  let! participant2 :=
    createParticipant (Match.opponent2 match_) originHint matchLocation roundNumber in
  let! v := get in
  let separated := Config.separatedChildCountLabel (Viewer.config v) in
  let childCount := Match.child_count match_ in
  let matchLabel :=
    match label with
    | Some text =>
        if bool_decide (text = "") then None
        else
          let text :=
            if bool_decide (0 < childCount) && negb separated
            then text +:+ ", " +:+ bestOfX childCount else text in
          Some (text, getMatchStatus (Match.status match_))
    | None => None
    end in
  let childCountLabel :=
    if bool_decide (0 < childCount) && separated then Some (bestOfX childCount)
    else None in
  ret (Dom.mkMatch (Match.id match_) (Match.status match_) matchLabel childCountLabel
         participant1 participant2 connection).

(** [createBracketMatch] *)
Definition createBracketMatch (roundNumber roundCount : nat) (match_ : Match.t)
    (matchLocation : BracketType) (connectFinal : option bool) : M Dom.MatchElement :=
  let connection := getBracketConnection roundNumber roundCount matchLocation connectFinal in
  let matchLabel :=
    getMatchLabel (Match.number match_) roundNumber roundCount matchLocation
    +:+ (if bool_decide (0 < Match.child_count match_)
         then ", Bo" +:+ pretty (Match.child_count match_) else "") in
  let! v := get in
  let originHint :=
    getOriginHint roundNumber roundCount (Viewer.skipFirstRound v) matchLocation in
  createMatch match_ (Some matchLocation) (Some connection) (Some matchLabel) originHint
              (Some roundNumber).

(** [createFinalMatch] *)
Definition createFinalMatch (type : FinalType) (matches : list Match.t)
    (roundNumber roundCount : nat) : M Dom.MatchElement :=
  let roundIndex := (roundNumber - 1)%nat in
  let connection := getFinalConnection type roundNumber (length matches) in
  let matchLabel := getFinalMatchLabel type roundNumber roundCount in
  let originHint := getFinalOriginHint type roundNumber in
  let! match_ := index "matches[roundIndex]" matches roundIndex in
  createMatch match_ (Some FinalGroup) (Some connection) (Some matchLabel) originHint None.

(** [createRankingRow] *)
Definition createRankingRow (item : RankingItem) : M (list Dom.Cell) :=
  forEach (λ row '(prop, data),
    let! v := get in
    let found :=
      if bool_decide (prop = "id")
      then List.find (λ participant, bool_decide (Participant.id participant = data))
                     (Viewer.participants v)
      else None in
    match found with
    | Some participant =>
        let! cell := createElement in
        setupMouseHover (Participant.id participant) cell;;
        ret (row ++ [Dom.mkCell cell (Participant.name participant)])
    | None =>
        let! cell := createElement in
        ret (row ++ [Dom.mkCell cell (pretty data)])
    end) [] item.

(** [createRanking] *)
Definition createRanking (matches : list Match.t) : M Dom.Table :=
  let ranking := getRanking matches in
  let! rows := forEach (λ rows item,
                 let! row := createRankingRow item in ret (rows ++ [row])) [] ranking in
  ret (Dom.mkTable ranking rows).

(** [root.querySelector('.bracket')]: the first bracket container. *)
Fixpoint querySelectorBracket (root : list Dom.Node) : option nat :=
  match root with
  | [] => None
  | Dom.Bracket _ _ :: _ => Some 0%nat
  | _ :: rest => S <$> querySelectorBracket rest
  end.

(** [upperBracket.append(roundContainer)] *)
Definition appendRound (roundContainer : Dom.RoundElement) (node : Dom.Node) : Dom.Node :=
  match node with
  | Dom.Bracket groupId rounds => Dom.Bracket groupId (rounds ++ [roundContainer])
  | other => other
  end.

(** [winnerWb?.id === null || winnerWb?.result === 'win' ? 1 : 2] *)
Definition displayCount (winnerWb : option ParticipantResult.t) : nat :=
  match winnerWb with
  | Some opponent =>
      if bool_decide (ParticipantResult.id opponent = None)
         || bool_decide (ParticipantResult.result opponent = Some Win)
      then 1%nat else 2%nat
  | None => 2%nat
  end.

(** [renderFinal] *)
Definition renderFinal (root : list Dom.Node) (finalType : FinalType)
    (matches : list Match.t) : M (list Dom.Node) :=
  match querySelectorBracket root with
  | None => throw (Error "Upper bracket not found.")
  | Some upperBracket =>
      let! first := index "matches[0]" matches 0 in
      let winnerWb := Match.opponent1 first in
      let finalMatches := take (displayCount winnerWb) matches in
      let roundCount := length matches in
      forEach (λ root roundIndex,
        let roundNumber := (roundIndex + 1)%nat in
        let! shown := index "finalMatches[roundIndex]" finalMatches roundIndex in
        let! matchElement := createFinalMatch finalType finalMatches roundNumber roundCount in
        let roundContainer :=
          Dom.mkRound (Match.round_id shown)
                      (getFinalMatchLabel finalType roundNumber roundCount)
                      [matchElement] in
        ret (alter (appendRound roundContainer) upperBracket root))
        root (seq 0 (length finalMatches))
  end.

(** [renderBracket] *)
Definition renderBracket (root : list Dom.Node) (matchesByRound : list (list Match.t))
    (roundName : nat → nat → string) (bracketType : BracketType)
    (connectFinal : option bool) : M (list Dom.Node) :=
  let! firstRound := index "matchesByRound[0]" matchesByRound 0 in
  let! first := index "matchesByRound[0][0]" firstRound 0 in
  let groupId := Match.group_id first in
  let roundCount := length matchesByRound in
  let! rendered :=
    forEach (λ '(roundNumber, rounds) matches,
      let! first := index "matches[0]" matches 0 in
      let roundId := Match.round_id first in
      let! matchElements :=
        forEach (λ elements match_,
          let! element :=
            createBracketMatch roundNumber roundCount match_ bracketType connectFinal in
          ret (elements ++ [element])) [] matches in
      ret (S roundNumber,
           rounds ++ [Dom.mkRound roundId (roundName roundNumber roundCount) matchElements]))
      (1%nat, []) matchesByRound in
  ret (root ++ [Dom.Bracket groupId (snd rendered)]).

(** [renderDoubleElimination] *)
Definition renderDoubleElimination (root : list Dom.Node)
    (matchesByGroup : list (list Match.t)) : M (list Dom.Node) :=
  let hasLoserBracket := bool_decide (matchesByGroup !! 1%nat ≠ None) in
  let hasFinal := bool_decide (matchesByGroup !! 2%nat ≠ None) in
  let! winners := index "matchesByGroup[0]" matchesByGroup 0 in
  let! root :=
    renderBracket root (splitBy winners Match.round_id) getWinnerBracketRoundName
                  WinnerBracket (Some hasFinal) in
  let! root :=
    match matchesByGroup !! 1%nat with
    | Some losers =>
        renderBracket root (splitBy losers Match.round_id) getLoserBracketRoundName
                      LoserBracket None
    | None => ret root
    end in
  match matchesByGroup !! 2%nat with
  | Some final => renderFinal root GrandFinal final
  | None => ret root
  end.

(** [renderSingleElimination] *)
Definition renderSingleElimination (root : list Dom.Node)
    (matchesByGroup : list (list Match.t)) : M (list Dom.Node) :=
  let! bracket := index "matchesByGroup[0]" matchesByGroup 0 in
  let! root :=
    renderBracket root (splitBy bracket Match.round_id) getRoundName SingleBracket None in
  match matchesByGroup !! 1%nat with
  | Some final => renderFinal root ConsolationFinal final
  | None => ret root
  end.

(** [renderElimination] *)
Definition renderElimination (root : list Dom.Node) (stage : Stage.t)
    (matchesByGroup : list (list Match.t)) : M (list Dom.Node) :=
  let root := root ++ [Dom.Title (Stage.name stage)] in
  if bool_decide (Stage.type stage = "single_elimination")
  then renderSingleElimination root matchesByGroup
  else renderDoubleElimination root matchesByGroup.

(** [renderRoundRobin] *)
Definition renderRoundRobin (root : list Dom.Node) (stage : Stage.t)
    (matchesByGroup : list (list Match.t)) : M (list Dom.Node) :=
  let! rendered :=
    forEach (λ '(groupNumber, groups) groupMatches,
      let! first := index "groupMatches[0]" groupMatches 0 in
      let groupId := Match.group_id first in
      let matchesByRound := splitBy groupMatches Match.round_id in
      let! rounds :=
        forEach (λ '(roundNumber, rounds) roundMatches,
          let! first := index "roundMatches[0]" roundMatches 0 in
          let roundId := Match.round_id first in
          let! matchElements :=
            forEach (λ elements match_,
              let! element := createMatch match_ None None None None None in
              ret (elements ++ [element])) [] roundMatches in
          ret (S roundNumber,
               rounds ++ [Dom.mkRound roundId (getRoundName roundNumber 0) matchElements]))
          (1%nat, []) matchesByRound in
      let! ranking := createRanking groupMatches in
      ret (S groupNumber,
           groups ++ [Dom.mkGroup groupId (getGroupName groupNumber) (snd rounds) ranking]))
      (1%nat, []) matchesByGroup in
  ret (root ++ [Dom.Title (Stage.name stage); Dom.RoundRobin (Stage.id stage) (snd rendered)]).

(** [renderStage] *)
Definition renderStage (root : list Dom.Node) (data : ViewerData.t) : M (list Dom.Node) :=
  let! stage := index "data.stages[0]" (ViewerData.stages data) 0 in
  let matchesByGroup := splitBy (ViewerData.matches data) Match.group_id in
  modify (set_skipFirstRound (default false (Stage.skipFirstRound stage)));;
  if bool_decide (Stage.type stage = "round_robin")
  then renderRoundRobin root stage matchesByGroup
  else if bool_decide (Stage.type stage = "single_elimination")
          || bool_decide (Stage.type stage = "double_elimination")
  then renderElimination root stage matchesByGroup
  else throw (Error ("Unknown bracket type: " +:+ Stage.type stage)).

(** [setParticipantImages] *)
Definition setParticipantImages (images : list ParticipantImage.t) : M unit :=
  modify (set_participantImages images).

(** The configuration [render] installs. *)
Definition resolveConfig (config : option PartialConfig.t) : Config.t :=
  {| Config.participantOriginPlacement :=
       default PlacementBefore (config ≫= PartialConfig.participantOriginPlacement);
     Config.separatedChildCountLabel :=
       default false (config ≫= PartialConfig.separatedChildCountLabel);
     Config.showSlotsOrigin :=
       default true (config ≫= PartialConfig.showSlotsOrigin);
     Config.showLowerBracketSlotsOrigin :=
       default true (config ≫= PartialConfig.showLowerBracketSlotsOrigin);
     Config.highlightParticipantOnHover :=
       default true (config ≫= PartialConfig.highlightParticipantOnHover) |}.

(** [data.participants.forEach(participant => this.participantRefs[participant.id] = [])] *)
Definition resetRefs (participants : list Participant.t) : M unit :=
  forEach (λ _ participant,
    let! v := get in
    modify (set_participantRefs
              (<[Participant.id participant := []]> (Viewer.participantRefs v))))
    tt participants.

(** The statements of [render] that precede the stages. *)
Definition renderSetup (data : ViewerData.t) (config : option PartialConfig.t) : M unit :=
  modify (set_config (resolveConfig config));;
  modify (set_participants (ViewerData.participants data));;
  resetRefs (ViewerData.participants data).

Definition renderStages (data : ViewerData.t) (root : list Dom.Node)
    (stages : list Stage.t) : M (list Dom.Node) :=
  forEach (λ root stage,
    renderStage root
      {| ViewerData.stages := [stage];
         ViewerData.matches :=
           filter (λ match_, Match.stage_id match_ = Stage.id stage) (ViewerData.matches data);
         ViewerData.participants := ViewerData.participants data |})
    root stages.

(** [render]; the value returned is the fragment appended to the root
    element of the page. *)
Definition render (data : ViewerData.t) (config : option PartialConfig.t)
    : M (list Dom.Node) :=
  renderSetup data config;;
  let! root := renderStages data [] (ViewerData.stages data) in
  match findRoot (config ≫= PartialConfig.selector) with
  | Some e => throw e
  | None => ret root
  end.

End Engine.

(** [new BracketsViewer()]. The two fields declared without initial value
    hold a placeholder that no function reads before [render] writes it. *)
Definition newViewer : Viewer.t :=
  Viewer.mk ∅ [] [] (resolveConfig None) false 0.

(** ** A sample locale and sample helpers, to run the engine on examples *)

Module Sample.
Definition roundLabel (prefix : string) (roundNumber roundCount : nat) : string :=
  if (roundNumber =? roundCount)%nat then prefix +:+ "Final"
  else prefix +:+ "Round " +:+ pretty roundNumber.

Definition phrase (from : Upstream) (position : Z) : string :=
  match from with
  | PreviousRound => "Winner of match " +:+ pretty position
  | WinnerBracketDrop => "Loser of WB match " +:+ pretty position
  end.

Global Instance lang : Lang := {|
  BYE := "BYE";
  getGroupName := λ n, "Group " +:+ pretty n;
  getRoundName := roundLabel "";
  getWinnerBracketRoundName := roundLabel "WB ";
  getLoserBracketRoundName := roundLabel "LB ";
  getMatchLabel := λ number _ _ _, "M" +:+ pretty number;
  getFinalMatchLabel := λ type roundNumber _,
    match type with
    | ConsolationFinal => "Consolation Final"
    | GrandFinal => "Grand Final " +:+ pretty roundNumber
    end;
  getFinalOriginHint := λ _ _, None;
  getMatchStatus := λ status, pretty status;
  bestOfX := λ x, "Bo" +:+ pretty x;
  originPhrase := phrase;
  freshDropOdd := Slot1;
|}.

(** One row per participant id met in the matches, with its wins. *)
Definition opponents (m : Match.t) : list ParticipantResult.t :=
  omap id [Match.opponent1 m; Match.opponent2 m].

Definition wins (matches : list Match.t) (participant : Z) : Z :=
  Z.of_nat (length (filter (λ o, ParticipantResult.id o = Some participant
                                 ∧ ParticipantResult.result o = Some Win)
                           (matches ≫= opponents))).

Definition ranking (matches : list Match.t) : list RankingItem :=
  (λ participant, [("id", participant); ("wins", wins matches participant)])
    <$> remove_dups (omap ParticipantResult.id (matches ≫= opponents)).

Global Instance helpers : Helpers := {|
  getRanking := ranking;
  getOriginAbbreviation := λ location _ _,
    match location with LoserBracket => "P" | _ => "#" end;
  findRoot := λ _, None;
|}.

Global Instance dom : DomBackend := {|
  getFinalConnection := λ _ roundNumber _,
    mkConnection (negb (roundNumber =? 1)%nat) false false;
|}.

Definition participant (id : Z) (name : string) : Participant.t := Participant.mk id name.

Definition opponent (id : Z) (result : option Result) : option ParticipantResult.t :=
  Some (ParticipantResult.mk (Some id) None None result).

(** A known opponent with the position it comes from. *)
Definition seeded (id position : Z) : option ParticipantResult.t :=
  Some (ParticipantResult.mk (Some id) (Some position) None None).

(** An opponent that is not known yet, expected from [position]. *)
Definition pending (position : Z) : option ParticipantResult.t :=
  Some (ParticipantResult.mk None (Some position) None None).

Definition match_ (id stage group round number : Z)
    (opponent1 opponent2 : option ParticipantResult.t) : Match.t :=
  Match.mk id 2 stage group round number 0 opponent1 opponent2.

Definition noHover : PartialConfig.t :=
  PartialConfig.mk None None None None None (Some false).

(** A single-elimination stage of two rounds. *)
Definition cup : ViewerData.t :=
  ViewerData.mk
    [Stage.mk 0 "Cup" "single_elimination" None]
    [match_ 0 0 0 0 1 (opponent 1 (Some Win)) (opponent 2 (Some Loss));
     match_ 1 0 0 0 2 (opponent 3 (Some Win)) (opponent 4 (Some Loss));
     match_ 2 0 0 1 1 (opponent 1 None) (opponent 3 None)]
    [participant 1 "a"; participant 2 "b"; participant 3 "c"; participant 4 "d"].

(** The match for the third place of the cup, lost by its first opponent. *)
Definition consolation : Match.t :=
  match_ 3 0 1 2 1 (opponent 2 (Some Loss)) (opponent 4 (Some Win)).

(** A double-elimination stage: a winner bracket and a loser bracket of
    two rounds each, and a grand final of two matches, the first of which
    the champion of the winner bracket lost. *)
Definition open : ViewerData.t :=
  ViewerData.mk
    [Stage.mk 1 "Open" "double_elimination" None]
    [match_ 10 1 10 100 1 (opponent 1 (Some Win)) (opponent 2 (Some Loss));
     match_ 11 1 10 100 2 (opponent 3 (Some Win)) (opponent 4 (Some Loss));
     match_ 12 1 10 101 1 (opponent 1 (Some Win)) (opponent 3 (Some Loss));
     match_ 13 1 11 110 1 (opponent 2 (Some Win)) (opponent 4 (Some Loss));
     match_ 14 1 11 111 1 (opponent 3 (Some Loss)) (opponent 2 (Some Win));
     match_ 15 1 12 120 1 (opponent 1 (Some Loss)) (opponent 2 (Some Win));
     match_ 16 1 12 121 1 (opponent 1 None) (opponent 2 None)]
    [participant 1 "a"; participant 2 "b"; participant 3 "c"; participant 4 "d"].
End Sample.

(** ** Running a computation *)

(** A decidable proposition on closed terms, by evaluation. *)
Ltac by_decide :=
  lazymatch goal with
  | |- ?P => apply (bool_decide_unpack P); vm_compute; exact I
  end.

Lemma bind_returned {A B} (m : M A) (k : A → M B) v a v' :
  m v = (Returned a, v') → bind m k v = k a v'.
Proof. unfold bind. by intros ->. Qed.

Lemma bind_thrown {A B} (m : M A) (k : A → M B) v e v' :
  m v = (Thrown e, v') → bind m k v = (Thrown e, v').
Proof. unfold bind. by intros ->. Qed.

Lemma bind_inv_returned {A B} (m : M A) (k : A → M B) v b v'' :
  bind m k v = (Returned b, v'') →
  ∃ a v', m v = (Returned a, v') ∧ k a v' = (Returned b, v'').
Proof.
  unfold bind. destruct (m v) as [[a|e] v']; [eauto | discriminate].
Qed.

Lemma forEach_app {A S} (body : S → A → M S) s xs ys v :
  forEach body s (xs ++ ys) v
  = (let! s' := forEach body s xs in forEach body s' ys) v.
Proof.
  revert s v. induction xs as [|x xs IH]; intros s v; simpl.
  - reflexivity.
  - unfold bind. destruct (body s x v) as [[s'|e] v']; [|reflexivity].
    rewrite IH. reflexivity.
Qed.

(** The fragment and the viewer once the sample cup is rendered. *)
Definition fragment (run : Outcome (list Dom.Node) * Viewer.t) : list Dom.Node :=
  match run.1 with
  | Returned root => root
  | Thrown _ => []
  end.

Definition cupRoot : list Dom.Node := fragment (render Sample.cup None newViewer).

Definition cupViewer : Viewer.t := (render Sample.cup None newViewer).2.

(** A run of the sample cup. *)
Example sample_run :
  match render Sample.cup None newViewer with
  | (Returned [Dom.Title "Cup"; Dom.Bracket 0 [r1; r2]], v) =>
      Dom.roundName r1 = "Round 1" ∧ Dom.roundName r2 = "Final"
      ∧ length (Dom.matches r1) = 2%nat
      ∧ Viewer.participantRefs v !! 1 = Some [0; 4]%nat
  | _ => False
  end.
Proof. vm_compute. done. Qed.

(** ** What a computation leaves of the state *)

Definition preserves {A} (R : relation Viewer.t) (m : M A) : Prop :=
  ∀ v, R v (m v).2.

Section Preserves.
Context (R : relation Viewer.t) `{!PreOrder R}.

Lemma preserves_ret {A} (a : A) : preserves R (ret a).
Proof. intros v. simpl. reflexivity. Qed.

Lemma preserves_throw {A} e : preserves R (@throw A e).
Proof. intros v. simpl. reflexivity. Qed.

Lemma preserves_get : preserves R get.
Proof. intros v. simpl. reflexivity. Qed.

Lemma preserves_bind {A B} (m : M A) (k : A → M B) :
  preserves R m → (∀ a, preserves R (k a)) → preserves R (bind m k).
Proof.
  intros Hm Hk v. unfold bind. specialize (Hm v).
  destruct (m v) as [[a|e] v']; simpl in *; [|done].
  etrans; [exact Hm | apply Hk].
Qed.

Lemma preserves_index {A} what (xs : list A) i : preserves R (index what xs i).
Proof. unfold index. destruct (xs !! i); [apply preserves_ret | apply preserves_throw]. Qed.

Lemma preserves_forEach {A S} (body : S → A → M S) s xs :
  (∀ s x, preserves R (body s x)) → preserves R (forEach body s xs).
Proof.
  intros Hbody. revert s. induction xs as [|x xs IH]; intros s; simpl.
  - apply preserves_ret.
  - apply preserves_bind; [apply Hbody | apply IH].
Qed.
End Preserves.

(** What every function that renders keeps of the viewer: the configuration,
    the participants and their images; the ids known to the hover index are
    the same, and each list of elements only grows. *)
Record keeps (v v' : Viewer.t) : Prop := {
  keeps_config : Viewer.config v' = Viewer.config v;
  keeps_participants : Viewer.participants v' = Viewer.participants v;
  keeps_images : Viewer.participantImages v' = Viewer.participantImages v;
  keeps_created : (Viewer.created v ≤ Viewer.created v')%nat;
  keeps_refs : ∀ id,
    match Viewer.participantRefs v !! id with
    | Some refs => ∃ more, Viewer.participantRefs v' !! id = Some (refs ++ more)
    | None => Viewer.participantRefs v' !! id = None
    end;
}.

(** Below [renderStage], [skipFirstRound] is kept too. *)
Record extends (v v' : Viewer.t) : Prop := {
  extends_keeps : keeps v v';
  extends_skipFirstRound : Viewer.skipFirstRound v' = Viewer.skipFirstRound v;
}.

Lemma keeps_same_refs v v' :
  Viewer.config v' = Viewer.config v →
  Viewer.participants v' = Viewer.participants v →
  Viewer.participantImages v' = Viewer.participantImages v →
  (Viewer.created v ≤ Viewer.created v')%nat →
  Viewer.participantRefs v' = Viewer.participantRefs v →
  keeps v v'.
Proof.
  intros Hc Hp Hi Hn Hr. split; try done. intros id. rewrite Hr.
  destruct (Viewer.participantRefs v !! id) as [refs|]; [|done].
  exists []. by rewrite app_nil_r.
Qed.

Global Instance keeps_preorder : PreOrder keeps.
Proof.
  split.
  - intros v. by apply keeps_same_refs.
  - intros v1 v2 v3 [c1 p1 i1 n1 r1] [c2 p2 i2 n2 r2].
    split; try congruence; [lia|].
    intros id. specialize (r1 id). specialize (r2 id).
    destruct (Viewer.participantRefs v1 !! id) as [refs|].
    + destruct r1 as [more1 E1]. rewrite E1 in r2. destruct r2 as [more2 E2].
      exists (more1 ++ more2). by rewrite E2, app_assoc.
    + by rewrite r1 in r2.
Qed.

Global Instance extends_preorder : PreOrder extends.
Proof.
  split.
  - intros v. by split.
  - intros v1 v2 v3 [k1 s1] [k2 s2]. split; [by etrans | congruence].
Qed.

Lemma preserves_weaken {A} (R R' : relation Viewer.t) (m : M A) :
  (∀ v v', R v v' → R' v v') → preserves R m → preserves R' m.
Proof. intros Hweak Hm v. apply Hweak, Hm. Qed.

Ltac frame_step :=
  lazymatch goal with
  | |- preserves _ (bind _ _) => refine (preserves_bind _ _ _ _ _); [|intros ?]
  | |- preserves _ (ret _) => refine (preserves_ret _ _)
  | |- preserves _ (throw _) => refine (preserves_throw _ _)
  | |- preserves _ get => refine (preserves_get _)
  | |- preserves _ (index _ _ _) => refine (preserves_index _ _ _ _)
  | |- preserves _ (forEach _ _ _) => refine (preserves_forEach _ _ _ _ _); intros ? ?
  | |- preserves _ (match ?x with _ => _ end) => destruct x
  | |- preserves _ (match ?x with _ => _ end _) => destruct x
  end.

Ltac frame := repeat (frame_step; simpl).

Section Frame.
Context `{Lang, Helpers, DomBackend}.

Lemma createElement_extends : preserves extends createElement.
Proof. intros v. split; [|done]. apply keeps_same_refs; simpl; try done. lia. Qed.

Lemma setupMouseHover_extends id element : preserves extends (setupMouseHover id element).
Proof.
  intros v. unfold setupMouseHover, bind, get. simpl.
  destruct (negb _); [simpl; reflexivity|].
  destruct (Viewer.participantRefs v !! id) as [refs|] eqn:E; [|simpl; reflexivity].
  simpl. split; [|done]. split; simpl; try done. intros id'.
  destruct (decide (id = id')) as [<-|Hne].
  - rewrite E, lookup_insert_eq. eauto.
  - rewrite lookup_insert_ne by done.
    destruct (Viewer.participantRefs v !! id'); [|done].
    exists []. by rewrite app_nil_r.
Qed.

Lemma renderParticipantOrigin_extends name p loc rn :
  preserves extends (renderParticipantOrigin name p loc rn).
Proof. unfold renderParticipantOrigin. frame. Qed.

Lemma renderHint_extends name p hint loc : preserves extends (renderHint name p hint loc).
Proof. unfold renderHint. frame. Qed.

Lemma renderParticipantImage_extends name id :
  preserves extends (renderParticipantImage name id).
Proof. unfold renderParticipantImage. frame. Qed.

Lemma renderParticipant_extends c p hint loc rn :
  preserves extends (renderParticipant c p hint loc rn).
Proof.
  unfold renderParticipant. frame;
    auto using renderParticipantImage_extends, renderParticipantOrigin_extends,
               renderHint_extends.
Qed.

Lemma createParticipant_extends p hint loc rn :
  preserves extends (createParticipant p hint loc rn).
Proof.
  unfold createParticipant. frame;
    auto using createElement_extends, renderParticipant_extends, setupMouseHover_extends.
Qed.

Lemma createMatch_extends m loc c l hint rn :
  preserves extends (createMatch m loc c l hint rn).
Proof. unfold createMatch. frame; auto using createParticipant_extends. Qed.

Lemma createBracketMatch_extends rn rc m loc cf :
  preserves extends (createBracketMatch rn rc m loc cf).
Proof. unfold createBracketMatch. frame. apply createMatch_extends. Qed.

Lemma createFinalMatch_extends t ms rn rc :
  preserves extends (createFinalMatch t ms rn rc).
Proof. unfold createFinalMatch. frame. apply createMatch_extends. Qed.

Lemma createRankingRow_extends item : preserves extends (createRankingRow item).
Proof.
  unfold createRankingRow. frame;
    auto using createElement_extends, setupMouseHover_extends.
Qed.

Lemma createRanking_extends ms : preserves extends (createRanking ms).
Proof. unfold createRanking. frame. apply createRankingRow_extends. Qed.

Lemma renderFinal_extends root t ms : preserves extends (renderFinal root t ms).
Proof. unfold renderFinal. frame. apply createFinalMatch_extends. Qed.

Lemma renderBracket_extends root mbr name t cf :
  preserves extends (renderBracket root mbr name t cf).
Proof. unfold renderBracket. frame. apply createBracketMatch_extends. Qed.

Lemma renderDoubleElimination_extends root mbg :
  preserves extends (renderDoubleElimination root mbg).
Proof.
  unfold renderDoubleElimination. frame;
    auto using renderBracket_extends, renderFinal_extends.
Qed.

Lemma renderSingleElimination_extends root mbg :
  preserves extends (renderSingleElimination root mbg).
Proof.
  unfold renderSingleElimination. frame;
    auto using renderBracket_extends, renderFinal_extends.
Qed.

Lemma renderElimination_extends root stage mbg :
  preserves extends (renderElimination root stage mbg).
Proof.
  unfold renderElimination. frame;
    auto using renderSingleElimination_extends, renderDoubleElimination_extends.
Qed.

Lemma renderRoundRobin_extends root stage mbg :
  preserves extends (renderRoundRobin root stage mbg).
Proof.
  unfold renderRoundRobin. frame;
    auto using createMatch_extends, createRanking_extends.
Qed.

End Frame.

Section Setup.
Context `{Lang, Helpers, DomBackend}.

Lemma renderStage_keeps root data : preserves keeps (renderStage root data).
Proof.
  unfold renderStage. frame.
  - intros v. by apply keeps_same_refs.
  - apply (preserves_weaken extends); [by intros ? ? []|]. apply renderRoundRobin_extends.
  - apply (preserves_weaken extends); [by intros ? ? []|]. apply renderElimination_extends.
Qed.

Lemma renderStages_keeps data root stages :
  preserves keeps (renderStages data root stages).
Proof. unfold renderStages. frame. apply renderStage_keeps. Qed.

(** The hover index once every participant of the roster has been given
    an empty list. *)
Definition resetAll (participants : list Participant.t) (refs : gmap Z (list Handle))
    : gmap Z (list Handle) :=
  fold_left (λ refs participant, <[Participant.id participant := []]> refs)
            participants refs.

Lemma resetRefs_run participants v :
  resetRefs participants v
  = (Returned tt,
     set_participantRefs (resetAll participants (Viewer.participantRefs v)) v).
Proof.
  unfold resetRefs. revert v.
  induction participants as [|p ps IH]; intros v; simpl.
  - by destruct v.
  - unfold bind at 1. simpl. rewrite IH. by destruct v.
Qed.

Lemma resetAll_lookup participants refs id :
  resetAll participants refs !! id
  = if bool_decide (id ∈ Participant.id <$> participants) then Some []
    else refs !! id.
Proof.
  unfold resetAll. revert refs.
  induction participants as [|p ps IH]; intros refs.
  - done.
  - cbn [fold_left]. rewrite IH, fmap_cons.
    destruct (decide (id = Participant.id p)) as [->|Hne].
    + rewrite lookup_insert_eq, (bool_decide_eq_true_2 (_ ∈ _ :: _)) by left.
      by destruct (bool_decide _).
    + rewrite lookup_insert_ne by done.
      rewrite (bool_decide_ext (id ∈ _ :: _) (id ∈ Participant.id <$> ps)); [done|].
      rewrite elem_of_cons. split; [by intros [?|?] | by right].
Qed.

Lemma renderSetup_run data config v :
  renderSetup data config v
  = (Returned tt,
     Viewer.mk (resetAll (ViewerData.participants data) (Viewer.participantRefs v))
               (ViewerData.participants data) (Viewer.participantImages v)
               (resolveConfig config) (Viewer.skipFirstRound v) (Viewer.created v)).
Proof. unfold renderSetup, bind, modify. simpl. by rewrite resetRefs_run. Qed.

(** The state and the outcome of [render], from the state in which the
    stages are processed. *)
Lemma render_run data config v :
  let v1 := (renderSetup data config v).2 in
  let run := renderStages data [] (ViewerData.stages data) v1 in
  render data config v
  = match run.1, findRoot (config ≫= PartialConfig.selector) with
    | Returned _, Some e => (Thrown e, run.2)
    | _, _ => run
    end.
Proof.
  simpl. unfold render. rewrite (bind_returned _ _ _ tt _ (renderSetup_run _ _ _)).
  rewrite renderSetup_run. simpl. unfold bind.
  destruct (renderStages _ _ _ _) as [[root|e] v']; simpl; [|done].
  by destruct (findRoot _).
Qed.

Lemma render_config data config v :
  Viewer.config (render data config v).2 = resolveConfig config.
Proof.
  rewrite render_run. simpl.
  pose proof (renderStages_keeps data [] (ViewerData.stages data)
                (renderSetup data config v).2) as [Hc _ _ _ _].
  rewrite renderSetup_run in *. simpl in *.
  destruct (renderStages _ _ _ _) as [[root|e] v']; simpl in *; [|done].
  by destruct (findRoot _).
Qed.
End Setup.

(** ** C9: the defaults of the configuration *)

(** C9. Whatever the data and the state of the viewer, the configuration in
    force during and after a call of [render] gives every omitted option (the
    whole configuration missing, or that option missing in it) its default:
    origin placement 'before', no separated child count label, slot origins
    shown, also in the loser bracket, and participants highlighted on hover. *)
Theorem render_default_config `{Lang, Helpers, DomBackend}
    (data : ViewerData.t) (config : option PartialConfig.t) (v : Viewer.t) :
  let installed := Viewer.config (render data config v).2 in
  (config ≫= PartialConfig.participantOriginPlacement = None →
     Config.participantOriginPlacement installed = PlacementBefore)
  ∧ (config ≫= PartialConfig.separatedChildCountLabel = None →
     Config.separatedChildCountLabel installed = false)
  ∧ (config ≫= PartialConfig.showSlotsOrigin = None →
     Config.showSlotsOrigin installed = true)
  ∧ (config ≫= PartialConfig.showLowerBracketSlotsOrigin = None →
     Config.showLowerBracketSlotsOrigin installed = true)
  ∧ (config ≫= PartialConfig.highlightParticipantOnHover = None →
     Config.highlightParticipantOnHover installed = true).
Proof.
  simpl. rewrite render_config. unfold resolveConfig. simpl.
  repeat split; intros ->; reflexivity.
Qed.

Lemma render_default_config_witness :
  let installed := Viewer.config (render Sample.cup None newViewer).2 in
  Config.participantOriginPlacement installed = PlacementBefore
  ∧ Config.separatedChildCountLabel installed = false
  ∧ Config.showSlotsOrigin installed = true
  ∧ Config.showLowerBracketSlotsOrigin installed = true
  ∧ Config.highlightParticipantOnHover installed = true.
Proof.
  destruct (render_default_config Sample.cup None newViewer) as (H1 & H2 & H3 & H4 & H5).
  exact (conj (H1 eq_refl) (conj (H2 eq_refl) (conj (H3 eq_refl)
           (conj (H4 eq_refl) (H5 eq_refl))))).
Defined.

(** ** C3 and C6: the hover index *)

Definition roster (data : ViewerData.t) : list Z :=
  Participant.id <$> ViewerData.participants data.

(** C3, amended. At the start of a call of [render] the viewer's
    configuration and participant list are overwritten from the arguments of
    the call, the participant images are kept, and in the hover index the
    entry of every participant of the roster of this call is an empty list,
    while the entry of any other id is what the earlier calls left. *)
Theorem renderSetup_hover_index `{Lang, Helpers, DomBackend}
    (data : ViewerData.t) (config : option PartialConfig.t) (v : Viewer.t) (id : Z) :
  let v' := (renderSetup data config v).2 in
  Viewer.config v' = resolveConfig config
  ∧ Viewer.participants v' = ViewerData.participants data
  ∧ Viewer.participantImages v' = Viewer.participantImages v
  ∧ Viewer.participantRefs v' !! id
    = if bool_decide (id ∈ roster data) then Some []
      else Viewer.participantRefs v !! id.
Proof.
  simpl. rewrite renderSetup_run. simpl. by rewrite resetAll_lookup.
Qed.

(** An id that is in no roster: a second call of [render], with an empty
    roster, on the viewer that rendered the sample cup. *)
Definition emptyData : ViewerData.t := ViewerData.mk [] [] [].

(** C3, as stated, fails: when the stages of the second call are about to be
    processed, and still when the call is over, the index holds for
    participant 1, who is not in the roster of that call, the two elements
    created for it by the first call. *)
Lemma hover_index_not_rebuilt :
  let v1 := (render Sample.cup None newViewer).2 in
  let v2 := (renderSetup emptyData None v1).2 in
  let v3 := (render emptyData None v1).2 in
  ¬ (∀ id refs, Viewer.participantRefs v2 !! id = Some refs →
        id ∈ roster emptyData ∧ Forall (λ element, Viewer.created v1 ≤ element)%nat refs)
  ∧ Viewer.participantRefs v2 !! 1 = Some [0; 4]%nat
  ∧ Viewer.participantRefs v3 !! 1 = Some [0; 4]%nat
  ∧ Viewer.created v1 = 6%nat.
Proof.
  simpl. split; [|by vm_compute].
  intros Hclaim. destruct (Hclaim 1 [0; 4]%nat) as [Hin _]; [by vm_compute|].
  by apply elem_of_nil in Hin.
Qed.

(** C6, amended. While a call of [render] processes its stages,
    [setupMouseHover] for an id that is not in the roster of this call does
    one of three things.  With hover highlighting off it returns at once,
    without an error and without a change.  With highlighting on, if no
    earlier call left an entry for the id in the hover index, it throws the
    error whose message names the id, and leaves the state as it is; if an
    earlier call did, it returns and the element is recorded at the end of
    the list of the id, after the elements that the earlier calls and this
    call recorded, the other lists being left as they are. *)
Theorem setupMouseHover_undeclared `{Lang, Helpers, DomBackend}
    (data : ViewerData.t) (config : option PartialConfig.t) (v0 v : Viewer.t)
    (id : Z) (element : Handle) :
  keeps (renderSetup data config v0).2 v →
  id ∉ roster data →
  let hover := Config.highlightParticipantOnHover (resolveConfig config) in
  (hover = false → setupMouseHover id element v = (Returned tt, v))
  ∧ (hover = true → Viewer.participantRefs v0 !! id = None →
     setupMouseHover id element v
     = (Thrown (Error ("The participant (id: " +:+ pretty id
                       +:+ ") does not exist in the participants table.")), v))
  ∧ (hover = true → ∀ earlier, Viewer.participantRefs v0 !! id = Some earlier →
     ∃ more v',
       Viewer.participantRefs v !! id = Some (earlier ++ more)
       ∧ setupMouseHover id element v = (Returned tt, v')
       ∧ Viewer.participantRefs v' !! id = Some (earlier ++ more ++ [element])
       ∧ (∀ other, other ≠ id →
            Viewer.participantRefs v' !! other = Viewer.participantRefs v !! other)
       ∧ Viewer.created v' = Viewer.created v).
Proof.
  intros [Hc _ _ _ Hrefs] Hout hover. subst hover.
  specialize (Hrefs id). rewrite renderSetup_run in Hc, Hrefs.
  cbn [snd Viewer.config Viewer.participantRefs] in Hc, Hrefs.
  rewrite resetAll_lookup, bool_decide_eq_false_2 in Hrefs by done.
  unfold setupMouseHover, bind, get. rewrite Hc.
  split; [|split].
  - intros ->. reflexivity.
  - intros -> Hnone. rewrite Hnone in Hrefs. cbn [negb]. by rewrite Hrefs.
  - intros -> earlier Hsome. rewrite Hsome in Hrefs. destruct Hrefs as [more Hmore].
    cbn [negb]. rewrite Hmore. eexists more, _. split; [done|]. split; [reflexivity|].
    cbn. split; [by rewrite lookup_insert_eq, <- app_assoc|].
    split; [|done]. intros other Hother. by rewrite lookup_insert_ne.
Qed.

Lemma setupMouseHover_undeclared_witness :
  let v := (renderSetup Sample.cup None newViewer).2 in
  setupMouseHover 9 0%nat v
  = (Thrown (Error "The participant (id: 9) does not exist in the participants table."), v).
Proof.
  intros v.
  refine (proj1 (proj2 (setupMouseHover_undeclared Sample.cup None newViewer v 9 0%nat
                          _ _)) eq_refl eq_refl).
  - subst v. reflexivity.
  - by_decide.
Defined.

(** C6, as stated, fails: with highlighting switched off the call returns
    for an id (9) of no roster; and with highlighting on it returns for
    participant 1, absent from the roster of the second call, because the
    first call declared it. *)
Lemma setupMouseHover_no_error :
  let quiet := (renderSetup Sample.cup (Some Sample.noHover) newViewer).2 in
  let v1 := (render Sample.cup None newViewer).2 in
  let v2 := (renderSetup emptyData None v1).2 in
  ((9 ∉ roster Sample.cup) ∧ (setupMouseHover 9 0%nat quiet).1 = Returned tt)
  ∧ ((1 ∉ roster emptyData)
     ∧ Config.highlightParticipantOnHover (Viewer.config v2) = true
     ∧ (setupMouseHover 1 6%nat v2).1 = Returned tt).
Proof.
  intros quiet v1 v2. subst quiet v1 v2.
  split; [split; [by_decide | by vm_compute] |].
  split; [by_decide | split; by vm_compute].
Qed.

(** ** Which exceptions a computation throws, and when it returns *)

Definition throwsOnly {A} (P : Exn → Prop) (m : M A) : Prop :=
  ∀ v e, (m v).1 = Thrown e → P e.

(** [m] returns from every state that satisfies [I], in a state that
    satisfies it. *)
Definition returnsUnder {A} (I : Viewer.t → Prop) (m : M A) : Prop :=
  ∀ v, I v → ∃ a, (m v).1 = Returned a ∧ I (m v).2.

Section Outcomes.
Context (P : Exn → Prop) (I : Viewer.t → Prop).

Lemma throwsOnly_ret {A} (a : A) : throwsOnly P (ret a).
Proof. intros v e. discriminate. Qed.

Lemma throwsOnly_get : throwsOnly P get.
Proof. intros v e. discriminate. Qed.

Lemma throwsOnly_modify f : throwsOnly P (modify f).
Proof. intros v e. discriminate. Qed.

Lemma throwsOnly_throw {A} e : P e → throwsOnly P (@throw A e).
Proof. intros He v e'. simpl. by intros [= <-]. Qed.

Lemma throwsOnly_bind {A B} (m : M A) (k : A → M B) :
  throwsOnly P m → (∀ a, throwsOnly P (k a)) → throwsOnly P (bind m k).
Proof.
  intros Hm Hk v e. unfold bind. specialize (Hm v).
  destruct (m v) as [[a|e'] v']; simpl in *.
  - apply Hk.
  - intros [= <-]. by apply Hm.
Qed.

Lemma throwsOnly_forEach {A S} (body : S → A → M S) s xs :
  (∀ s x, x ∈ xs → throwsOnly P (body s x)) → throwsOnly P (forEach body s xs).
Proof.
  revert s. induction xs as [|x xs IH]; intros s Hbody; simpl.
  - apply throwsOnly_ret.
  - apply throwsOnly_bind.
    + apply Hbody. by left.
    + intros s'. apply IH. intros s'' y Hy. apply Hbody. by right.
Qed.

Lemma throwsOnly_index {A} what (xs : list A) i :
  (i < length xs)%nat → throwsOnly P (index what xs i).
Proof.
  intros Hi. unfold index. destruct (lookup_lt_is_Some_2 xs i Hi) as [x ->].
  apply throwsOnly_ret.
Qed.

Lemma returnsUnder_ret {A} (a : A) : returnsUnder I (ret a).
Proof. intros v Hv. by exists a. Qed.

Lemma returnsUnder_get : returnsUnder I get.
Proof. intros v Hv. by exists v. Qed.

Lemma returnsUnder_bind {A B} (m : M A) (k : A → M B) :
  returnsUnder I m → (∀ a, returnsUnder I (k a)) → returnsUnder I (bind m k).
Proof.
  intros Hm Hk v Hv. unfold bind. destruct (Hm v Hv) as (a & Ha & Hv').
  destruct (m v) as [[a'|e] v']; simpl in *; [|done].
  injection Ha as ->. by apply Hk.
Qed.

Lemma returnsUnder_forEach {A S} (body : S → A → M S) s xs :
  (∀ s x, x ∈ xs → returnsUnder I (body s x)) → returnsUnder I (forEach body s xs).
Proof.
  revert s. induction xs as [|x xs IH]; intros s Hbody; simpl.
  - apply returnsUnder_ret.
  - apply returnsUnder_bind.
    + apply Hbody. by left.
    + intros s'. apply IH. intros s'' y Hy. apply Hbody. by right.
Qed.

Lemma returnsUnder_index {A} what (xs : list A) i :
  (i < length xs)%nat → returnsUnder I (index what xs i).
Proof.
  intros Hi. unfold index. destruct (lookup_lt_is_Some_2 xs i Hi) as [x ->].
  apply returnsUnder_ret.
Qed.
End Outcomes.

Ltac outcome_step :=
  lazymatch goal with
  | |- throwsOnly _ (bind _ _) => refine (throwsOnly_bind _ _ _ _ _); [|intros ?]
  | |- throwsOnly _ (ret _) => refine (throwsOnly_ret _ _)
  | |- throwsOnly _ get => refine (throwsOnly_get _)
  | |- throwsOnly _ (modify _) => refine (throwsOnly_modify _ _)
  | |- throwsOnly _ (forEach _ _ _) => refine (throwsOnly_forEach _ _ _ _ _); intros ? ? ?
  | |- throwsOnly _ (match ?x with _ => _ end) => destruct x eqn:?
  | |- throwsOnly _ (match ?x with _ => _ end _) => destruct x eqn:?
  | |- returnsUnder _ (bind _ _) => refine (returnsUnder_bind _ _ _ _ _); [|intros ?]
  | |- returnsUnder _ (ret _) => refine (returnsUnder_ret _ _)
  | |- returnsUnder _ get => refine (returnsUnder_get _)
  | |- returnsUnder _ (forEach _ _ _) => refine (returnsUnder_forEach _ _ _ _ _); intros ? ? ?
  | |- returnsUnder _ (match ?x with _ => _ end) => destruct x eqn:?
  | |- returnsUnder _ (match ?x with _ => _ end _) => destruct x eqn:?
  end.

Ltac outcome := repeat (outcome_step; simpl).

(** The errors of [setupMouseHover]. *)
Definition isHoverError (e : Exn) : Prop := ∃ id, e = hoverError id.

(** Hover highlighting is switched off. *)
Definition quiet (v : Viewer.t) : Prop :=
  Config.highlightParticipantOnHover (Viewer.config v) = false.

Section MatchOutcomes.
Context `{Lang, Helpers, DomBackend}.

Lemma createElement_throws : throwsOnly isHoverError createElement.
Proof. intros v e. discriminate. Qed.

Lemma createElement_quiet : returnsUnder quiet createElement.
Proof. intros v Hv. by exists (Viewer.created v). Qed.

Lemma setupMouseHover_throws id element :
  throwsOnly isHoverError (setupMouseHover id element).
Proof.
  intros v e. unfold setupMouseHover, bind, get. simpl.
  destruct (negb _); [discriminate|].
  destruct (_ !! _); [discriminate|]. simpl. intros [= <-]. by exists id.
Qed.

Lemma setupMouseHover_quiet id element : returnsUnder quiet (setupMouseHover id element).
Proof.
  intros v Hv. unfold setupMouseHover, bind, get. simpl.
  rewrite Hv. simpl. by exists tt.
Qed.

Lemma createParticipant_throws p hint loc rn :
  throwsOnly isHoverError (createParticipant p hint loc rn).
Proof.
  unfold createParticipant, renderParticipant, renderParticipantImage,
    renderParticipantOrigin, renderHint.
  outcome; auto using createElement_throws, setupMouseHover_throws.
Qed.

Lemma createParticipant_quiet p hint loc rn :
  returnsUnder quiet (createParticipant p hint loc rn).
Proof.
  unfold createParticipant, renderParticipant, renderParticipantImage,
    renderParticipantOrigin, renderHint.
  outcome; auto using createElement_quiet, setupMouseHover_quiet.
Qed.

Lemma createMatch_throws m loc c l hint rn :
  throwsOnly isHoverError (createMatch m loc c l hint rn).
Proof. unfold createMatch. outcome; apply createParticipant_throws. Qed.

Lemma createMatch_quiet m loc c l hint rn :
  returnsUnder quiet (createMatch m loc c l hint rn).
Proof. unfold createMatch. outcome; apply createParticipant_quiet. Qed.

Lemma createBracketMatch_throws rn rc m loc cf :
  throwsOnly isHoverError (createBracketMatch rn rc m loc cf).
Proof. unfold createBracketMatch. outcome. apply createMatch_throws. Qed.

Lemma createBracketMatch_quiet rn rc m loc cf :
  returnsUnder quiet (createBracketMatch rn rc m loc cf).
Proof. unfold createBracketMatch. outcome. apply createMatch_quiet. Qed.

Lemma createFinalMatch_throws t ms rn rc :
  (rn - 1 < length ms)%nat → throwsOnly isHoverError (createFinalMatch t ms rn rc).
Proof.
  intros Hrn. unfold createFinalMatch. outcome.
  - by apply throwsOnly_index.
  - apply createMatch_throws.
Qed.

Lemma createFinalMatch_quiet t ms rn rc :
  (rn - 1 < length ms)%nat → returnsUnder quiet (createFinalMatch t ms rn rc).
Proof.
  intros Hrn. unfold createFinalMatch. outcome.
  - by apply returnsUnder_index.
  - apply createMatch_quiet.
Qed.
End MatchOutcomes.

(** ** C1 and C10: the rounds of a final group *)

(** The rounds of the bracket that [renderFinal] appends to. *)
Definition bracketRounds (root : list Dom.Node) : list Dom.RoundElement :=
  match querySelectorBracket root with
  | Some upperBracket =>
      match root !! upperBracket with
      | Some (Dom.Bracket _ rounds) => rounds
      | _ => []
      end
  | None => []
  end.

(** Several [upperBracket.append(roundContainer)] in a row. *)
Definition appendRounds (rounds : list Dom.RoundElement) (node : Dom.Node) : Dom.Node :=
  match node with
  | Dom.Bracket groupId before => Dom.Bracket groupId (before ++ rounds)
  | other => other
  end.

Lemma querySelectorBracket_appendRounds (root : list Dom.Node) (i : nat) rounds :
  querySelectorBracket root = Some i →
  bracketRounds (alter (appendRounds rounds) i root) = bracketRounds root ++ rounds.
Proof.
  unfold bracketRounds, alter.
  assert (∀ root i, querySelectorBracket root = Some i →
            querySelectorBracket (list_alter (appendRounds rounds) i root) = Some i
            ∧ match list_alter (appendRounds rounds) i root !! i with
              | Some (Dom.Bracket _ after) => after
              | _ => []
              end
              = match root !! i with
                | Some (Dom.Bracket _ before) => before
                | _ => []
                end ++ rounds) as Hboth.
  { clear root i. induction root as [|node root IH]; intros i; simpl; [done|].
    destruct node as [text|stage groups|group before]; simpl.
    - destruct (querySelectorBracket root) as [j|] eqn:E; [|done].
      simpl. intros [= <-]. simpl. destruct (IH j eq_refl) as [-> IH2]. done.
    - destruct (querySelectorBracket root) as [j|] eqn:E; [|done].
      simpl. intros [= <-]. simpl. destruct (IH j eq_refl) as [-> IH2]. done.
    - by intros [= <-]. }
  intros Hi. destruct (Hboth root i Hi) as [-> Heq]. by rewrite Hi.
Qed.

Lemma appendRounds_lookup (root : list Dom.Node) (i : nat) rounds (j : nat) groupId before :
  root !! j = Some (Dom.Bracket groupId before) →
  ∃ extra, alter (appendRounds rounds) i root !! j
           = Some (Dom.Bracket groupId (before ++ extra)).
Proof.
  intros Hj. rewrite list_lookup_alter. destruct (decide (i = j)) as [->|Hne].
  - rewrite Hj. by exists rounds.
  - exists []. by rewrite app_nil_r.
Qed.

Lemma forEach_appendRounds {A} (body : list Dom.Node → A → M (list Dom.Node))
    (Q : A → Dom.RoundElement → Prop) i xs :
  (∀ root x v root' v', x ∈ xs → body root x v = (Returned root', v') →
     ∃ roundContainer, root' = alter (appendRound roundContainer) i root
                       ∧ Q x roundContainer) →
  ∀ root v root' v',
    forEach body root xs v = (Returned root', v') →
    ∃ rounds, Forall2 Q xs rounds ∧ root' = alter (appendRounds rounds) i root.
Proof.
  induction xs as [|x xs IH]; intros Hbody root v root' v'; simpl.
  - intros [= <- <-]. exists []. split; [done|].
    symmetry. apply list_alter_id. intros [| |]; simpl; by rewrite ?app_nil_r.
  - intros Hrun. apply bind_inv_returned in Hrun as (root1 & v1 & Hx & Hrest).
    destruct (Hbody _ _ _ _ _ (list_elem_of_here _ _) Hx) as (r & -> & HQ).
    destruct (IH (λ root x v root' v' Hin, Hbody root x v root' v' (list_elem_of_further _ _ _ Hin))
                 _ _ _ _ Hrest) as (rounds & Hall & ->).
    exists (r :: rounds). split; [by constructor|].
    rewrite list_alter_alter_eq. apply list_alter_ext; [|done].
    intros [| |groupId before] _; simpl; try done. by rewrite <- app_assoc.
Qed.

(** A round container that shows one match. *)
Definition shows (match_ : Match.t) (roundContainer : Dom.RoundElement) : Prop :=
  Dom.roundId roundContainer = Match.round_id match_
  ∧ Dom.matchId <$> Dom.matches roundContainer = [Match.id match_].

Section Final.
Context `{Lang, Helpers, DomBackend}.

Lemma createMatch_returned match_ location connection label hint roundNumber v element v' :
  createMatch match_ location connection label hint roundNumber v = (Returned element, v') →
  Dom.matchId element = Match.id match_ ∧ Dom.connection element = connection.
Proof.
  unfold createMatch. intros Hrun.
  apply bind_inv_returned in Hrun as (p1 & v1 & _ & Hrun).
  apply bind_inv_returned in Hrun as (p2 & v2 & _ & Hrun).
  by injection Hrun as <- _.
Qed.

(** What [renderFinal] has done when it returns: it appended to the upper
    bracket one round for each match of the slice, in order. *)
Lemma renderFinal_altered root finalType matches v root' v' :
  renderFinal root finalType matches v = (Returned root', v') →
  ∃ upperBracket first rounds,
    querySelectorBracket root = Some upperBracket
    ∧ matches !! 0%nat = Some first
    ∧ root' = alter (appendRounds rounds) upperBracket root
    ∧ Forall2 shows (take (displayCount (Match.opponent1 first)) matches) rounds.
Proof.
  unfold renderFinal.
  destruct (querySelectorBracket root) as [i|] eqn:Hi; [|discriminate].
  intros Hrun. apply bind_inv_returned in Hrun as (first & v1 & Hfirst & Hloop).
  unfold index in Hfirst. destruct (matches !! 0%nat) as [m|] eqn:Hm; [|discriminate].
  injection Hfirst as -> ->.
  set (finalMatches := take (displayCount (Match.opponent1 first)) matches) in *.
  eapply (forEach_appendRounds _
            (λ roundIndex r, ∃ m, finalMatches !! roundIndex = Some m ∧ shows m r))
    in Hloop as (rounds & Hall & Heq).
  - exists i, first, rounds. split; [done|]. split; [done|]. split; [done|].
    apply Forall2_same_length_lookup. split.
    + apply Forall2_length in Hall. by rewrite length_seq in Hall.
    + intros k m r Hm' Hr.
      destruct (Forall2_lookup_r _ _ _ _ _ Hall Hr) as (idx & Hidx & m' & Hm'' & Hshows).
      apply lookup_seq in Hidx as [-> _]. simpl in Hm''.
      fold finalMatches in Hm'. by simplify_eq.
  - intros r x w r' w' _ Hbody.
    apply bind_inv_returned in Hbody as (shown & w1 & Hshown & Hbody).
    apply bind_inv_returned in Hbody as (element & w2 & Helement & Hbody).
    injection Hbody as <- _. eexists. split; [done|].
    unfold index in Hshown. destruct (finalMatches !! x) as [m'|] eqn:Hx; [|discriminate].
    injection Hshown as -> ->. exists shown. split; [done|].
    split; [done|]. simpl.
    unfold createFinalMatch in Helement.
    apply bind_inv_returned in Helement as (m'' & w3 & Hm'' & Helement).
    unfold index in Hm''. replace (x + 1 - 1)%nat with x in Hm'' by lia.
    fold finalMatches in Hm''. rewrite Hx in Hm''. injection Hm'' as <- <-.
    apply createMatch_returned in Helement as [-> _]. done.
Qed.

Lemma renderFinal_returned root finalType matches v root' v' :
  renderFinal root finalType matches v = (Returned root', v') →
  ∃ first rounds,
    matches !! 0%nat = Some first
    ∧ bracketRounds root' = bracketRounds root ++ rounds
    ∧ Forall2 shows (take (displayCount (Match.opponent1 first)) matches) rounds.
Proof.
  intros Hrun.
  apply renderFinal_altered in Hrun as (i & first & rounds & Hi & Hfirst & -> & Hall).
  exists first, rounds. split; [done|]. split; [|done].
  by apply querySelectorBracket_appendRounds.
Qed.

(** [renderFinal] reads no match that is not there, if it is given one. *)
Lemma renderFinal_throws root finalType matches :
  matches ≠ [] →
  throwsOnly (λ e, e = Error "Upper bracket not found." ∨ isHoverError e)
             (renderFinal root finalType matches).
Proof.
  intros Hne. unfold renderFinal.
  destruct (querySelectorBracket root) as [i|].
  - assert (throwsOnly isHoverError
      (let! first := index "matches[0]" matches 0 in
       forEach (λ root roundIndex,
         let roundNumber := (roundIndex + 1)%nat in
         let! shown := index "finalMatches[roundIndex]"
                         (take (displayCount (Match.opponent1 first)) matches) roundIndex in
         let! matchElement :=
           createFinalMatch finalType (take (displayCount (Match.opponent1 first)) matches)
                            roundNumber (length matches) in
         ret (alter (appendRound
                (Dom.mkRound (Match.round_id shown)
                   (getFinalMatchLabel finalType roundNumber (length matches))
                   [matchElement])) i root))
         root (seq 0 (length (take (displayCount (Match.opponent1 first)) matches)))))
      as Hthrows.
    { outcome.
      - apply throwsOnly_index. destruct matches; [done | simpl; lia].
      - apply throwsOnly_index.
        match goal with Hin : _ ∈ seq _ _ |- _ => apply elem_of_seq in Hin end. lia.
      - apply createFinalMatch_throws.
        match goal with Hin : _ ∈ seq _ _ |- _ => apply elem_of_seq in Hin end. lia. }
    intros v e He. right. by apply (Hthrows v e).
  - apply throwsOnly_throw. by left.
Qed.

(** [renderFinal] returns when there is a bracket and a match, and hover
    highlighting is off. *)
Lemma renderFinal_quiet root finalType matches :
  matches ≠ [] → querySelectorBracket root ≠ None →
  returnsUnder quiet (renderFinal root finalType matches).
Proof.
  intros Hne Hroot. unfold renderFinal.
  destruct (querySelectorBracket root) as [i|]; [|done].
  outcome.
  - apply returnsUnder_index. destruct matches; [done | simpl; lia].
  - apply returnsUnder_index.
    match goal with Hin : _ ∈ seq _ _ |- _ => apply elem_of_seq in Hin end. lia.
  - apply createFinalMatch_quiet.
    match goal with Hin : _ ∈ seq _ _ |- _ => apply elem_of_seq in Hin end. lia.
Qed.
End Final.

(** The opponent 1 of the first match, taken for the champion of the winner
    bracket, is present and either unknown yet or the winner of that match. *)
Definition championWon (first : Match.t) : Prop :=
  ∃ opponent, Match.opponent1 first = Some opponent
              ∧ (ParticipantResult.id opponent = None
                 ∨ ParticipantResult.result opponent = Some Win).

Lemma displayCount_won first :
  championWon first → displayCount (Match.opponent1 first) = 1%nat.
Proof.
  intros (opponent & -> & Hwon). simpl.
  destruct Hwon as [Hid|Hwin].
  - by rewrite (bool_decide_eq_true_2 _ Hid).
  - rewrite (bool_decide_eq_true_2 _ Hwin). by rewrite orb_true_r.
Qed.

Lemma displayCount_not_won first :
  ¬ championWon first → displayCount (Match.opponent1 first) = 2%nat.
Proof.
  intros Hnot. unfold displayCount.
  destruct (Match.opponent1 first) as [opponent|] eqn:E; [|done].
  repeat case_bool_decide; simpl; try done; exfalso; apply Hnot; exists opponent; auto.
Qed.

(** C1, amended. When [renderFinal] returns it has appended rounds to the
    upper bracket: one round if opponent 1 of the first match of the group is
    present with an id unset or with the result 'win'; otherwise (result
    undefined, 'loss' or 'draw', or no opponent 1) two rounds if the group has
    at least two matches, and one round if it has one. *)
Theorem renderFinal_round_count `{Lang, Helpers, DomBackend}
    (root : list Dom.Node) (finalType : FinalType) (matches : list Match.t)
    (v : Viewer.t) (root' : list Dom.Node) (v' : Viewer.t) :
  renderFinal root finalType matches v = (Returned root', v') →
  ∃ first rounds,
    matches !! 0%nat = Some first
    ∧ bracketRounds root' = bracketRounds root ++ rounds
    ∧ (championWon first → length rounds = 1%nat)
    ∧ (¬ championWon first → length rounds = (2 `min` length matches)%nat).
Proof.
  intros Hrun. apply renderFinal_returned in Hrun as (first & rounds & Hfirst & Heq & Hall).
  exists first, rounds. split; [done|]. split; [done|].
  apply Forall2_length in Hall. rewrite length_take in Hall. rewrite <- Hall.
  assert (1 ≤ length matches)%nat by (destruct matches; [done | simpl; lia]).
  split; intros Hwon.
  - rewrite displayCount_won by done. lia.
  - by rewrite displayCount_not_won.
Qed.

(** The consolation final of the sample cup, appended to its bracket. *)
Definition consolationRun : Outcome (list Dom.Node) * Viewer.t :=
  renderFinal cupRoot ConsolationFinal [Sample.consolation] cupViewer.

Lemma renderFinal_round_count_witness :
  ∃ first rounds,
    [Sample.consolation] !! 0%nat = Some first
    ∧ bracketRounds (fragment consolationRun) = bracketRounds cupRoot ++ rounds
    ∧ (championWon first → length rounds = 1%nat)
    ∧ (¬ championWon first → length rounds = (2 `min` 1)%nat).
Proof.
  apply (renderFinal_round_count cupRoot ConsolationFinal [Sample.consolation] cupViewer
           (fragment consolationRun) consolationRun.2).
  vm_compute. reflexivity.
Defined.

(** C1, as stated, fails: for a consolation final of one match whose
    opponent 1 lost, the rule selects two rounds and one round is displayed. *)
Lemma renderFinal_one_match_one_round :
  displayCount (Match.opponent1 Sample.consolation) = 2%nat
  ∧ ∃ root',
      consolationRun.1 = Returned root'
      ∧ length (bracketRounds cupRoot) = 2%nat
      ∧ length (bracketRounds root') = 3%nat.
Proof.
  split; [reflexivity|]. eexists. split; [vm_compute; reflexivity|].
  split; vm_compute; reflexivity.
Qed.

(** C10. Given at least one match, [renderFinal] never reads a match that is
    not there; when it returns, the rounds it appended show the matches of
    the slice, in order, so that they are no more than the matches given and
    exactly one for a group of one match; and it returns whenever the fragment
    has a bracket and hover highlighting is off. *)
Theorem renderFinal_within_matches `{Lang, Helpers, DomBackend}
    (root : list Dom.Node) (finalType : FinalType) (matches : list Match.t) (v : Viewer.t) :
  matches ≠ [] →
  let run := renderFinal root finalType matches v in
  (∀ access, run.1 ≠ Thrown (TypeError access))
  ∧ (∀ root', run.1 = Returned root' →
       ∃ first rounds,
         matches !! 0%nat = Some first
         ∧ bracketRounds root' = bracketRounds root ++ rounds
         ∧ Forall2 shows (take (displayCount (Match.opponent1 first)) matches) rounds
         ∧ (length rounds ≤ length matches)%nat
         ∧ (length matches = 1%nat → length rounds = 1%nat))
  ∧ (querySelectorBracket root ≠ None → quiet v → ∃ root', run.1 = Returned root').
Proof.
  intros Hne run. split; [|split].
  - intros access Hrun.
    destruct (renderFinal_throws root finalType matches Hne v _ Hrun) as [?|[id ?]];
      discriminate.
  - intros root' Hrun. subst run.
    destruct (renderFinal _ _ _ _) as [o v'] eqn:E. simpl in Hrun. subst o.
    apply renderFinal_returned in E as (first & rounds & Hfirst & Heq & Hall).
    exists first, rounds. repeat (split; [done|]).
    pose proof (Forall2_length _ _ _ Hall) as Hlen. rewrite length_take in Hlen.
    split; [lia|]. intros Hone.
    assert (1 ≤ displayCount (Match.opponent1 first))%nat.
    { unfold displayCount. destruct (Match.opponent1 first); [|lia].
      destruct (_ || _); lia. }
    lia.
  - intros Hroot Hquiet.
    destruct (renderFinal_quiet root finalType matches Hne Hroot v Hquiet) as (root' & ? & _).
    by exists root'.
Qed.

Lemma renderFinal_within_matches_witness :
  let run := consolationRun in
  (∀ access, run.1 ≠ Thrown (TypeError access))
  ∧ (∀ root', run.1 = Returned root' →
       ∃ first rounds,
         [Sample.consolation] !! 0%nat = Some first
         ∧ bracketRounds root' = bracketRounds cupRoot ++ rounds
         ∧ Forall2 shows (take (displayCount (Match.opponent1 first)) [Sample.consolation]) rounds
         ∧ (length rounds ≤ 1)%nat
         ∧ (1%nat = 1%nat → length rounds = 1%nat))
  ∧ (querySelectorBracket cupRoot ≠ None → quiet cupViewer → ∃ root', run.1 = Returned root').
Proof.
  pose proof (renderFinal_within_matches cupRoot ConsolationFinal [Sample.consolation]
                cupViewer ltac:(discriminate)) as Hwithin.
  cbn [length] in Hwithin. unfold consolationRun. exact Hwithin.
Defined.

(** ** C7: a stage of an unknown kind *)

Definition knownKind (stage : Stage.t) : Prop :=
  Stage.type stage = "round_robin"
  ∨ Stage.type stage = "single_elimination"
  ∨ Stage.type stage = "double_elimination".

Definition unknownKindError (stage : Stage.t) : Exn :=
  Error ("Unknown bracket type: " +:+ Stage.type stage).

Section UnknownKind.
Context `{Lang, Helpers, DomBackend}.

Lemma renderStage_unknown root data stage v :
  ViewerData.stages data !! 0%nat = Some stage →
  ¬ knownKind stage →
  renderStage root data v
  = (Thrown (unknownKindError stage),
     set_skipFirstRound (default false (Stage.skipFirstRound stage)) v).
Proof.
  intros Hstage Hkind. unfold renderStage, index. rewrite Hstage.
  unfold bind, ret, modify. cbn beta iota.
  rewrite !bool_decide_eq_false_2; [done | | |]; intros E; apply Hkind; red; auto.
Qed.

Lemma renderStages_unknown data root before stage after v root1 v1 :
  ¬ knownKind stage →
  renderStages data root before v = (Returned root1, v1) →
  renderStages data root (before ++ stage :: after) v
  = (Thrown (unknownKindError stage),
     set_skipFirstRound (default false (Stage.skipFirstRound stage)) v1).
Proof.
  intros Hkind Hbefore. unfold renderStages in *.
  rewrite forEach_app. rewrite (bind_returned _ _ _ _ _ Hbefore).
  cbn [forEach]. apply bind_thrown. by apply renderStage_unknown.
Qed.

Lemma renderStages_returned_known data root stages v root' v' :
  renderStages data root stages v = (Returned root', v') →
  Forall knownKind stages.
Proof.
  unfold renderStages. revert root v.
  induction stages as [|stage stages IH]; intros root v; [by constructor|].
  cbn [forEach]. intros Hrun.
  apply bind_inv_returned in Hrun as (root1 & v1 & Hstage & Hrest).
  constructor; [|by eapply IH].
  destruct (decide (Stage.type stage = "round_robin")); [by left|].
  destruct (decide (Stage.type stage = "single_elimination")); [by right; left|].
  destruct (decide (Stage.type stage = "double_elimination")); [by right; right|].
  rewrite renderStage_unknown with (stage := stage) in Hstage; [done | done |].
  unfold knownKind. tauto.
Qed.
End UnknownKind.

(** C7. A stage whose kind is none of the three makes [renderStage] throw
    the error that names the kind.  [render] does not catch it: if the stages
    before it were rendered, [render] throws this same error, in the state
    reached when [renderStage] threw, the later stages not being processed;
    and in any case [render] does not return. *)
Theorem render_unknown_kind `{Lang, Helpers, DomBackend}
    (data : ViewerData.t) (config : option PartialConfig.t) (v : Viewer.t)
    (before after : list Stage.t) (stage : Stage.t) :
  ViewerData.stages data = before ++ stage :: after →
  ¬ knownKind stage →
  let thrown := Thrown (Error ("Unknown bracket type: " +:+ Stage.type stage)) in
  let skipped := set_skipFirstRound (default false (Stage.skipFirstRound stage)) in
  (∀ root matches participants v1,
     renderStage root (ViewerData.mk [stage] matches participants) v1
     = (thrown, skipped v1))
  ∧ (∀ root1 v1,
       renderStages data [] before (renderSetup data config v).2 = (Returned root1, v1) →
       render data config v = (thrown, skipped v1))
  ∧ (∀ root, (render data config v).1 ≠ Returned root).
Proof.
  intros Hstages Hkind thrown skipped. split; [|split].
  - intros root matches participants v1. by apply renderStage_unknown.
  - intros root1 v1 Hbefore. rewrite render_run. cbn zeta.
    rewrite Hstages, (renderStages_unknown _ _ _ _ after _ _ _ Hkind Hbefore). done.
  - intros root Hrun. rewrite render_run in Hrun. cbn zeta in Hrun.
    destruct (renderStages _ _ _ _) as [[root1|e] v1] eqn:E; simpl in Hrun.
    + apply renderStages_returned_known in E. rewrite Hstages in E.
      apply Forall_app in E as [_ E]. by inversion E.
    + discriminate.
Qed.

(** The sample cup followed by a stage of the kind 'swiss'. *)
Definition swiss : Stage.t := Stage.mk 7 "Swiss" "swiss" None.

Definition cupThenSwiss : ViewerData.t :=
  ViewerData.mk (ViewerData.stages Sample.cup ++ [swiss])
                (ViewerData.matches Sample.cup) (ViewerData.participants Sample.cup).

Lemma render_unknown_kind_witness :
  (∀ root matches participants v1,
     renderStage root (ViewerData.mk [swiss] matches participants) v1
     = (Thrown (Error "Unknown bracket type: swiss"), set_skipFirstRound false v1))
  ∧ (∀ root1 v1,
       renderStages cupThenSwiss [] (ViewerData.stages Sample.cup)
                    (renderSetup cupThenSwiss None newViewer).2 = (Returned root1, v1) →
       render cupThenSwiss None newViewer
       = (Thrown (Error "Unknown bracket type: swiss"), set_skipFirstRound false v1))
  ∧ (∀ root, (render cupThenSwiss None newViewer).1 ≠ Returned root).
Proof.
  apply (render_unknown_kind cupThenSwiss None newViewer
           (ViewerData.stages Sample.cup) [] swiss).
  - reflexivity.
  - intros [E|[E|E]]; discriminate E.
Defined.

Example render_cupThenSwiss :
  (render cupThenSwiss None newViewer).1 = Thrown (Error "Unknown bracket type: swiss").
Proof. vm_compute. reflexivity. Qed.

(** ** C8: the two options on slot origins *)

(** Origins are suppressed for a match at this location. *)
Definition originsOff (config : Config.t) (matchLocation : option BracketType) : Prop :=
  Config.showSlotsOrigin config = false
  ∨ (Config.showLowerBracketSlotsOrigin config = false ∧ matchLocation = Some LoserBracket).

Definition noOrigin (element : Dom.ParticipantElement) : Prop :=
  Dom.hint (Dom.name element) = None ∧ Dom.origin (Dom.name element) = None.

(** The viewer with [showLowerBracketSlotsOrigin] given the value [b]. *)
Definition withLowerBracketSlotsOrigin (b : bool) (v : Viewer.t) : Viewer.t :=
  let config := Viewer.config v in
  set_config
    (Config.mk (Config.participantOriginPlacement config)
               (Config.separatedChildCountLabel config)
               (Config.showSlotsOrigin config) b
               (Config.highlightParticipantOnHover config)) v.

(** [m] does the same whatever the state was before [f] changed it. *)
Definition commutes {A} (f : Viewer.t → Viewer.t) (m : M A) : Prop :=
  ∀ v, m (f v) = ((m v).1, f (m v).2).

Lemma commutes_ret {A} f (a : A) : commutes f (ret a).
Proof. by intros v. Qed.

Lemma commutes_bind {A B} f (m : M A) (k : A → M B) :
  commutes f m → (∀ a, commutes f (k a)) → commutes f (bind m k).
Proof.
  intros Hm Hk v. unfold bind. rewrite Hm.
  destruct (m v) as [[a|e] v']; simpl; [apply Hk | done].
Qed.

Lemma commutes_get_bind {A} f (k : Viewer.t → M A) :
  (∀ v w, k (f v) w = k v w) → (∀ v, commutes f (k v)) → commutes f (bind get k).
Proof. intros Hread Hk v. unfold bind, get. rewrite Hread. apply Hk. Qed.

Section Origins.
Context `{Lang, Helpers, DomBackend}.

Lemma renderHint_off name participant hint location v :
  originsOff (Viewer.config v) location →
  renderHint name participant hint location v = (Returned name, v).
Proof.
  intros Hoff. unfold renderHint.
  destruct hint, (ParticipantResult.position participant); try done.
  unfold bind, get. destruct Hoff as [->|[-> ->]]; [done|].
  by destruct (Config.showSlotsOrigin _).
Qed.

Lemma renderParticipantOrigin_off name participant location roundNumber v :
  originsOff (Viewer.config v) location →
  renderParticipantOrigin name participant location roundNumber v = (Returned name, v).
Proof.
  intros Hoff. unfold renderParticipantOrigin.
  destruct (ParticipantResult.position participant), location as [location|]; try done.
  unfold bind, get. destruct (bool_decide (_ = PlacementNone)); [done|].
  destruct Hoff as [->|[-> [= ->]]]; [done|].
  by destruct (Config.showSlotsOrigin _).
Qed.

Lemma renderParticipantImage_name name id v :
  ∃ name', renderParticipantImage name id v = (Returned name', v)
           ∧ Dom.hint name' = Dom.hint name ∧ Dom.origin name' = Dom.origin name.
Proof.
  unfold renderParticipantImage, bind, get.
  destruct (List.find _ _); eauto.
Qed.

Lemma createParticipant_off participant hint location roundNumber v element v' :
  originsOff (Viewer.config v) location →
  createParticipant participant hint location roundNumber v = (Returned element, v') →
  noOrigin element.
Proof.
  intros Hoff. unfold createParticipant. intros Hrun.
  apply bind_inv_returned in Hrun as (handle & v1 & Hhandle & Hrun).
  injection Hhandle as <- <-.
  apply bind_inv_returned in Hrun as (containers & v2 & Hcontainers & Hrun).
  apply bind_inv_returned in Hrun as (? & v3 & _ & Hrun).
  injection Hrun as <- _.
  destruct participant as [participant|]; [|by injection Hcontainers as <- _].
  unfold renderParticipant in Hcontainers.
  apply bind_inv_returned in Hcontainers as (w & ? & [= <- <-] & Hcontainers).
  apply bind_inv_returned in Hcontainers as (named & v4 & Hnamed & Hcontainers).
  injection Hcontainers as <- _.
  destruct (findParticipant _ _) as [found|].
  - apply bind_inv_returned in Hnamed as (name1 & v5 & Himage & Hnamed).
    apply bind_inv_returned in Hnamed as (name2 & v6 & Horigin & Hnamed).
    injection Hnamed as <- _.
    destruct (renderParticipantImage_name
                (setInnerText Dom.emptyName (Participant.name found)) (Participant.id found)
                (set_created (S (Viewer.created v)) v)) as (name' & Himage' & Hh & Ho).
    cbn [Dom.name] in Himage. rewrite Himage' in Himage. injection Himage as <- <-.
    rewrite renderParticipantOrigin_off in Horigin by done.
    injection Horigin as <- _. by split.
  - apply bind_inv_returned in Hnamed as (name1 & v5 & Hhint & Hnamed).
    injection Hnamed as <- _.
    rewrite renderHint_off in Hhint by done. injection Hhint as <- _. by split.
Qed.
End Origins.

Section LowerBracketOption.
Context `{Lang, Helpers, DomBackend}.
Context (b : bool).

Abbreviation lower := (withLowerBracketSlotsOrigin b).

Lemma createElement_lower : commutes lower createElement.
Proof. by intros v. Qed.

Lemma setupMouseHover_lower id element : commutes lower (setupMouseHover id element).
Proof.
  intros v. unfold setupMouseHover, bind, get. cbn.
  destruct (negb _); [done|]. by destruct (_ !! _).
Qed.

Lemma renderParticipantImage_lower name id : commutes lower (renderParticipantImage name id).
Proof.
  intros v. unfold renderParticipantImage, bind, get. cbn.
  by destruct (List.find _ _).
Qed.

Lemma renderHint_lower name participant hint location :
  location ≠ Some LoserBracket →
  commutes lower (renderHint name participant hint location).
Proof.
  intros Hloc v. unfold renderHint.
  destruct hint, (ParticipantResult.position participant); try done.
  unfold bind, get. cbn. rewrite (bool_decide_eq_false_2 _ Hloc), !andb_false_r.
  by destruct (negb _).
Qed.

Lemma renderParticipantOrigin_lower name participant location roundNumber :
  location ≠ Some LoserBracket →
  commutes lower (renderParticipantOrigin name participant location roundNumber).
Proof.
  intros Hloc v. unfold renderParticipantOrigin.
  destruct (ParticipantResult.position participant), location as [location|]; try done.
  assert (location ≠ LoserBracket) as Hne by congruence.
  unfold bind, get. cbn. rewrite (bool_decide_eq_false_2 _ Hne), !andb_false_r.
  destruct (bool_decide _); [done|]. by destruct (negb _).
Qed.

Lemma renderParticipant_lower containers participant hint location roundNumber :
  location ≠ Some LoserBracket →
  commutes lower (renderParticipant containers participant hint location roundNumber).
Proof.
  intros Hloc. unfold renderParticipant.
  apply commutes_get_bind; [done|]. intros v.
  apply commutes_bind; [|intros ?; apply commutes_ret].
  destruct (findParticipant _ _).
  - apply commutes_bind; [apply renderParticipantImage_lower|]. intros ?.
    apply commutes_bind; [by apply renderParticipantOrigin_lower|]. intros ?.
    apply commutes_ret.
  - apply commutes_bind; [by apply renderHint_lower|]. intros ?. apply commutes_ret.
Qed.

Lemma createParticipant_lower participant hint location roundNumber :
  location ≠ Some LoserBracket →
  commutes lower (createParticipant participant hint location roundNumber).
Proof.
  intros Hloc. unfold createParticipant.
  apply commutes_bind; [apply createElement_lower|]. intros element.
  apply commutes_bind.
  { destruct participant; [by apply renderParticipant_lower | apply commutes_ret]. }
  intros containers. apply commutes_bind; [|intros ?; apply commutes_ret].
  destruct (_ ≫= _); [apply setupMouseHover_lower | apply commutes_ret].
Qed.

Lemma createMatch_lower match_ location connection label hint roundNumber :
  location ≠ Some LoserBracket →
  commutes lower (createMatch match_ location connection label hint roundNumber).
Proof.
  intros Hloc. unfold createMatch.
  apply commutes_bind; [by apply createParticipant_lower|]. intros participant1.
  apply commutes_bind; [by apply createParticipant_lower|]. intros participant2.
  apply commutes_get_bind; [done|]. intros v. apply commutes_ret.
Qed.
End LowerBracketOption.

(** C8. For any match created by [createMatch]: with [showSlotsOrigin] off,
    neither participant carries a hint or an origin, whatever the location;
    with [showSlotsOrigin] on and [showLowerBracketSlotsOrigin] off, neither
    does in a match of the loser bracket, and a match located anywhere else is
    rendered exactly as it is with [showLowerBracketSlotsOrigin] on. *)
Theorem createMatch_slot_origin_options `{Lang, Helpers, DomBackend}
    (match_ : Match.t) (matchLocation : option BracketType)
    (connection : option Connection) (label : option string) (originHint : OriginHint)
    (roundNumber : option nat) (v : Viewer.t) (element : Dom.MatchElement) (v' : Viewer.t) :
  createMatch match_ matchLocation connection label originHint roundNumber v
  = (Returned element, v') →
  (Config.showSlotsOrigin (Viewer.config v) = false →
     noOrigin (Dom.participant1 element) ∧ noOrigin (Dom.participant2 element))
  ∧ (Config.showSlotsOrigin (Viewer.config v) = true →
     Config.showLowerBracketSlotsOrigin (Viewer.config v) = false →
     (matchLocation = Some LoserBracket →
        noOrigin (Dom.participant1 element) ∧ noOrigin (Dom.participant2 element))
     ∧ (matchLocation ≠ Some LoserBracket →
        (createMatch match_ matchLocation connection label originHint roundNumber
                     (withLowerBracketSlotsOrigin true v)).1 = Returned element)).
Proof.
  intros Hrun.
  assert (originsOff (Viewer.config v) matchLocation →
          noOrigin (Dom.participant1 element) ∧ noOrigin (Dom.participant2 element)) as Hoff.
  { intros Hoff. unfold createMatch in Hrun.
    apply bind_inv_returned in Hrun as (p1 & v1 & Hp1 & Hrun).
    apply bind_inv_returned in Hrun as (p2 & v2 & Hp2 & Hrun).
    injection Hrun as <- _. cbn [Dom.participant1 Dom.participant2].
    pose proof (createParticipant_extends (Match.opponent1 match_) originHint matchLocation
                  roundNumber v) as [[Hc _ _ _ _] _].
    rewrite Hp1 in Hc. cbn [snd] in Hc.
    split.
    - by eapply createParticipant_off.
    - eapply createParticipant_off; [|exact Hp2]. by rewrite Hc. }
  split.
  - intros Hshow. apply Hoff. by left.
  - intros Hshow Hlower. split.
    + intros Hloc. apply Hoff. by right.
    + intros Hloc. rewrite createMatch_lower by done. by rewrite Hrun.
Qed.

(** A match of the second round of a bracket of the sample double
    elimination, its second slot not known yet, rendered with
    [showLowerBracketSlotsOrigin] off. *)
Definition placedMatch : Match.t :=
  Sample.match_ 14 1 11 111 1 (Sample.seeded 3 2) (Sample.pending 1).

Definition lowerOff : PartialConfig.t :=
  PartialConfig.mk None None None None (Some false) None.

Definition lowerOffRun (location : BracketType) : Outcome Dom.MatchElement * Viewer.t :=
  createMatch placedMatch (Some location) None None (getOriginHint 2 2 false location)
              (Some 2%nat) (renderSetup Sample.open (Some lowerOff) newViewer).2.

Example lowerOff_loser_bracket :
  match (lowerOffRun LoserBracket).1 with
  | Returned element =>
      Dom.name (Dom.participant1 element) = Dom.mkName "c" None None None
      ∧ Dom.name (Dom.participant2 element) = Dom.mkName "" None None None
  | Thrown _ => False
  end.
Proof. vm_compute. done. Qed.

Example lowerOff_winner_bracket :
  match (lowerOffRun WinnerBracket).1 with
  | Returned element =>
      Dom.name (Dom.participant1 element)
      = Dom.mkName "c" None None (Some ("#2", PlacementBefore))
      ∧ Dom.name (Dom.participant2 element)
        = Dom.mkName "" None (Some "Winner of match 1") None
  | Thrown _ => False
  end.
Proof. vm_compute. done. Qed.

Lemma createMatch_slot_origin_options_witness :
  ∃ element,
    (lowerOffRun LoserBracket).1 = Returned element
    ∧ noOrigin (Dom.participant1 element) ∧ noOrigin (Dom.participant2 element).
Proof.
  eexists. split; [vm_compute; reflexivity|].
  refine (proj1 (proj2 (createMatch_slot_origin_options placedMatch (Some LoserBracket)
            None None (getOriginHint 2 2 false LoserBracket) (Some 2%nat)
            (renderSetup Sample.open (Some lowerOff) newViewer).2 _
            (lowerOffRun LoserBracket).2 _) eq_refl eq_refl) eq_refl).
  vm_compute. reflexivity.
Defined.

(** ** C2: an opponent that is not in the participant list *)

(** The hint displayed for a participant that is not resolved. *)
Definition shownHint (config : Config.t) (participant : ParticipantResult.t)
    (originHint : OriginHint) (matchLocation : option BracketType) : option string :=
  match originHint, ParticipantResult.position participant with
  | Some hint, Some position =>
      if Config.showSlotsOrigin config
         && (Config.showLowerBracketSlotsOrigin config
             || negb (bool_decide (matchLocation = Some LoserBracket)))
      then Some (hint position) else None
  | _, _ => None
  end.

Section Unlisted.
Context `{Lang, Helpers, DomBackend}.

Lemma renderHint_run participant originHint matchLocation v :
  renderHint Dom.emptyName participant originHint matchLocation v
  = (Returned (Dom.mkName "" None
                 (shownHint (Viewer.config v) participant originHint matchLocation) None), v).
Proof.
  unfold renderHint, shownHint.
  destruct originHint, (ParticipantResult.position participant); try done.
  unfold bind, get.
  destruct (Config.showSlotsOrigin _), (Config.showLowerBracketSlotsOrigin _),
    (bool_decide _); done.
Qed.

(** What [createParticipant] does up to the call of [setupMouseHover], for a
    participant that [find] does not find. *)
Lemma createParticipant_unlisted_run participant originHint matchLocation roundNumber v :
  findParticipant (Viewer.participants v) (ParticipantResult.id participant) = None →
  createParticipant (Some participant) originHint matchLocation roundNumber v
  = (let element :=
       Dom.mkParticipant (Viewer.created v) (ParticipantResult.id participant) None
         (Dom.mkName "" None
            (shownHint (Viewer.config v) participant originHint matchLocation) None)
         (scoreText participant) (Some participant) in
     match ParticipantResult.id participant with
     | Some id => setupMouseHover id (Viewer.created v);; ret element
     | None => ret element
     end) (set_created (S (Viewer.created v)) v).
Proof.
  intros Hfind. unfold createParticipant.
  unfold bind at 1. cbn [createElement].
  unfold bind at 1. unfold renderParticipant.
  unfold bind at 1. cbn [get].
  cbn [Viewer.participants set_created]. rewrite Hfind.
  unfold bind at 1. unfold bind at 1. cbn [Dom.name].
  rewrite renderHint_run. cbn.
  by destruct (ParticipantResult.id participant).
Qed.
End Unlisted.

(** C2, amended. For an opponent whose id is not found in the participant
    list, [createParticipant] writes no resolved name and no origin: the name
    container carries the origin-hint phrase when a hint function and a
    position are there and the two options on slot origins allow it, and
    nothing otherwise.  The failed lookup is not fatal when the id is [null]
    or hover highlighting is off; with highlighting on, an id that has no
    entry in the hover index makes [createParticipant] throw the error of
    [setupMouseHover]. *)
Theorem createParticipant_unlisted `{Lang, Helpers, DomBackend}
    (participant : ParticipantResult.t) (originHint : OriginHint)
    (matchLocation : option BracketType) (roundNumber : option nat) (v : Viewer.t) :
  findParticipant (Viewer.participants v) (ParticipantResult.id participant) = None →
  let run := createParticipant (Some participant) originHint matchLocation roundNumber v in
  (∀ element, run.1 = Returned element →
     Dom.title element = None
     ∧ Dom.name element
       = Dom.mkName "" None
           (shownHint (Viewer.config v) participant originHint matchLocation) None)
  ∧ (ParticipantResult.id participant = None ∨ quiet v → ∃ element, run.1 = Returned element)
  ∧ (∀ id, ParticipantResult.id participant = Some id →
       Config.highlightParticipantOnHover (Viewer.config v) = true →
       Viewer.participantRefs v !! id = None →
       run.1 = Thrown (Error ("The participant (id: " +:+ pretty id
                              +:+ ") does not exist in the participants table."))).
Proof.
  intros Hfind run. subst run. rewrite createParticipant_unlisted_run by done.
  cbn zeta. destruct (ParticipantResult.id participant) as [id|] eqn:Hid.
  - unfold setupMouseHover, bind, get. cbn.
    destruct (Config.highlightParticipantOnHover (Viewer.config v)) eqn:Hhover; cbn.
    + destruct (Viewer.participantRefs v !! id) as [refs|] eqn:Hrefs; cbn.
      * split; [by intros element [= <-]|]. split; [eauto|].
        intros id' [= <-] _ Hnone. congruence.
      * split; [by intros element E|]. split; [|by intros id' [= <-] _ _].
        intros [E|Hquiet]; [discriminate|]. red in Hquiet. congruence.
    + split; [by intros element [= <-]|]. split; [eauto|].
      intros id' _ E. discriminate.
  - cbn. split; [by intros element [= <-]|]. split; [eauto | done].
Qed.

Lemma createParticipant_unlisted_witness :
  let participant := ParticipantResult.mk None (Some 1) None None in
  let v := (renderSetup Sample.open None newViewer).2 in
  let run := createParticipant (Some participant) (getOriginHint 2 2 false WinnerBracket)
                               (Some WinnerBracket) (Some 2%nat) v in
  (∀ element, run.1 = Returned element →
     Dom.title element = None
     ∧ Dom.name element = Dom.mkName "" None (Some "Winner of match 1") None)
  ∧ ∃ element, run.1 = Returned element.
Proof.
  intros participant v run.
  destruct (createParticipant_unlisted participant (getOriginHint 2 2 false WinnerBracket)
              (Some WinnerBracket) (Some 2%nat) v eq_refl) as (Hname & Hreturns & _).
  split; [exact Hname | exact (Hreturns (or_introl eq_refl))].
Defined.

(** A cup whose final names a participant, 9, that is not in the list. *)
Definition strayCup : ViewerData.t :=
  ViewerData.mk
    (ViewerData.stages Sample.cup)
    [Sample.match_ 0 0 0 0 1 (Sample.opponent 1 (Some Win)) (Sample.opponent 2 (Some Loss));
     Sample.match_ 1 0 0 0 2 (Sample.opponent 3 (Some Win)) (Sample.opponent 4 (Some Loss));
     Sample.match_ 2 0 0 1 1 (Sample.opponent 1 None) (Sample.seeded 9 2)]
    (ViewerData.participants Sample.cup).

(** C2, as stated, fails: with the default options, the opponent 9 of the
    final, who is not in the participant list, makes [render] throw. *)
Lemma render_unlisted_participant_fatal :
  (9 ∉ roster strayCup)
  ∧ (render strayCup None newViewer).1
    = Thrown (Error "The participant (id: 9) does not exist in the participants table.").
Proof. split; [by_decide | vm_compute; reflexivity]. Qed.

(** ** C5 and C4: the matches of a bracket *)

Section Loops.
Context (R : relation Viewer.t) `{!PreOrder R}.

(** A loop that collects what [f] returns: each element was returned by [f]
    in a state reached from the initial one. *)
Lemma forEach_collect {A B} (f : A → M B) xs :
  (∀ x, preserves R (f x)) →
  ∀ acc v out v',
    forEach (λ acc x, let! b := f x in ret (acc ++ [b])) acc xs v = (Returned out, v') →
    ∃ new, out = acc ++ new
           ∧ Forall2 (λ x b, ∃ w w', R v w ∧ f x w = (Returned b, w')) xs new.
Proof.
  intros Hf. induction xs as [|x xs IH]; intros acc v out v'; simpl.
  - intros [= <- <-]. exists []. by rewrite app_nil_r.
  - intros Hrun. apply bind_inv_returned in Hrun as (acc1 & v1 & Hx & Hrest).
    apply bind_inv_returned in Hx as (b & v2 & Hb & [= <- <-]).
    destruct (IH _ _ _ _ Hrest) as (new & -> & Hall).
    exists (b :: new). split; [by rewrite <- app_assoc|].
    pose proof (Hf x v) as Hstep. rewrite Hb in Hstep. cbn in Hstep.
    constructor.
    + exists v, v2. split; [reflexivity | done].
    + eapply Forall2_impl; [exact Hall|]. intros y c (w & w' & Hw & Hy).
      exists w, w'. split; [by etrans | done].
Qed.

(** A loop that numbers its iterations and collects one result for each. *)
Lemma forEach_numbered {A B} (body : nat * list B → A → M (nat * list B))
    (Q : Viewer.t → nat → A → B → Prop) xs :
  (∀ s x, preserves R (body s x)) →
  (∀ n acc x w s' w', body (n, acc) x w = (Returned s', w') →
     ∃ r, s' = (S n, acc ++ [r]) ∧ Q w n x r) →
  ∀ n acc v s' v',
    forEach body (n, acc) xs v = (Returned s', v') →
    ∃ new, s' = ((n + length xs)%nat, acc ++ new)
           ∧ length new = length xs
           ∧ ∀ i x r, xs !! i = Some x → new !! i = Some r →
               ∃ w, R v w ∧ Q w (n + i)%nat x r.
Proof.
  intros Hframe Hbody. induction xs as [|x xs IH]; intros n acc v s' v'; simpl.
  - intros [= <- <-]. exists []. rewrite app_nil_r, Nat.add_0_r. done.
  - intros Hrun. apply bind_inv_returned in Hrun as (s1 & v1 & Hx & Hrest).
    pose proof (Hframe (n, acc) x v) as Hstep. rewrite Hx in Hstep. cbn in Hstep.
    destruct (Hbody _ _ _ _ _ _ Hx) as (r & -> & HQ).
    destruct (IH _ _ _ _ _ Hrest) as (new & -> & Hlen & Hall).
    exists (r :: new). split; [by rewrite <- app_assoc, Nat.add_succ_r|].
    split; [simpl; by rewrite Hlen|].
    intros [|i] y r'; simpl.
    + intros [= <-] [= <-]. rewrite Nat.add_0_r. exists v. split; [reflexivity | done].
    + intros Hy Hr. rewrite Nat.add_succ_r.
      destruct (Hall i y r' Hy Hr) as (w & Hw & HQ'). exists w. split; [by etrans | done].
Qed.
End Loops.

Section Bracket.
Context `{Lang, Helpers, DomBackend}.

(** [element] is what [createBracketMatch] returns for [match_], called in
    some state that [extends] the state [v0]. *)
Definition bracketMatch (v0 : Viewer.t) (roundNumber roundCount : nat)
    (matchLocation : BracketType) (connectFinal : option bool)
    (match_ : Match.t) (element : Dom.MatchElement) : Prop :=
  ∃ v v', extends v0 v
          ∧ createBracketMatch roundNumber roundCount match_ matchLocation connectFinal v
            = (Returned element, v').

(** What [renderBracket] has done when it returns: it appended one bracket
    of as many rounds as it was given, the round of rank [i] made of the
    matches that [createBracketMatch] returns for the round number [i + 1]. *)
Lemma renderBracket_returned root matchesByRound roundName bracketType connectFinal
    v root' v' :
  renderBracket root matchesByRound roundName bracketType connectFinal v
  = (Returned root', v') →
  ∃ groupId rounds,
    root' = root ++ [Dom.Bracket groupId rounds]
    ∧ length rounds = length matchesByRound
    ∧ matchesByRound ≠ []
    ∧ ∀ i matches round,
        matchesByRound !! i = Some matches → rounds !! i = Some round →
        matches ≠ []
        ∧ Dom.roundName round = roundName (S i) (length matchesByRound)
        ∧ Forall2 (bracketMatch v (S i) (length matchesByRound) bracketType connectFinal)
                  matches (Dom.matches round).
Proof.
  unfold renderBracket. intros Hrun.
  apply bind_inv_returned in Hrun as (firstRound & v1 & HfirstRound & Hrun).
  apply bind_inv_returned in Hrun as (first & v2 & Hfirst & Hrun).
  apply bind_inv_returned in Hrun as (rendered & v3 & Hloop & Hrun).
  injection Hrun as <- _.
  unfold index in HfirstRound.
  destruct (matchesByRound !! 0%nat) eqn:Hhead; [|discriminate].
  injection HfirstRound as -> ->.
  unfold index in Hfirst. destruct (firstRound !! 0%nat); [|discriminate].
  injection Hfirst as -> ->.
  eapply (forEach_numbered extends _
            (λ w n matches round,
               matches ≠ []
               ∧ Dom.roundName round = roundName n (length matchesByRound)
               ∧ Forall2 (bracketMatch w n (length matchesByRound) bracketType connectFinal)
                         matches (Dom.matches round)))
    in Hloop as (rounds & -> & Hlen & Hall).
  - exists (Match.group_id first), rounds. split; [done|]. split; [done|].
    split; [by intros ->|].
    intros i matches round Hmatches Hround.
    destruct (Hall i matches round Hmatches Hround) as (w & Hw & Hne & Hname & Hmatch).
    split; [done|]. split; [done|].
    eapply Forall2_impl; [exact Hmatch|].
    intros m element (w1 & w1' & Hw1 & Hcreate). exists w1, w1'. split; [by etrans | done].
  - intros [n acc] matches. frame. apply createBracketMatch_extends.
  - intros n acc matches w s' w'. cbn beta iota. intros Hround.
    apply bind_inv_returned in Hround as (m0 & w2 & Hm0 & Hround).
    apply bind_inv_returned in Hround as (elements & w3 & Helements & [= <- <-]).
    unfold index in Hm0. destruct (matches !! 0%nat) eqn:Hm0'; [|discriminate].
    injection Hm0 as -> ->.
    eapply (forEach_collect extends
              (λ match_, createBracketMatch n (length matchesByRound) match_
                                            bracketType connectFinal))
      in Helements as (new & -> & Hnew); [|intros ?; apply createBracketMatch_extends].
    eexists. split; [done|]. cbn.
    split; [by intros ->|]. split; [done|]. exact Hnew.
Qed.

Lemma createBracketMatch_returned roundNumber roundCount match_ matchLocation connectFinal
    v element v' :
  createBracketMatch roundNumber roundCount match_ matchLocation connectFinal v
  = (Returned element, v') →
  Dom.matchId element = Match.id match_
  ∧ Dom.connection element
    = Some (getBracketConnection roundNumber roundCount matchLocation connectFinal).
Proof.
  unfold createBracketMatch. intros Hrun.
  apply bind_inv_returned in Hrun as (w & ? & [= <- <-] & Hrun).
  by apply createMatch_returned in Hrun.
Qed.
End Bracket.

(** Whether the match carries a connector on the side [side]. *)
Definition connector (side : Connection → bool) (element : Dom.MatchElement) : bool :=
  match Dom.connection element with
  | Some connection => side connection
  | None => false
  end.

(** The connectors of a bracket whose [roundCount] first rounds are those
    rendered by [renderBracket]: no match of round 1 is connected backward,
    and the matches connected forward to a final group are those of the last
    round if [final] holds, none otherwise. *)
Definition bracketConnectors (roundCount : nat) (final : bool) (node : Dom.Node) : Prop :=
  ∃ groupId rounds,
    node = Dom.Bracket groupId rounds
    ∧ (1 ≤ roundCount ≤ length rounds)%nat
    ∧ ∀ i round, (i < roundCount)%nat → rounds !! i = Some round →
        Dom.matches round ≠ []
        ∧ (i = 0%nat → Forall (λ element, connector connectPrevious element = false)
                              (Dom.matches round))
        ∧ Forall (λ element,
                    connector connectFinal element
                    = bool_decide (S i = roundCount) && final)
                 (Dom.matches round).

Section Connectors.
Context `{Lang, Helpers, DomBackend}.

Lemma bracketMatch_connectors v roundNumber roundCount matchLocation connectFinal'
    match_ element :
  bracketMatch v roundNumber roundCount matchLocation connectFinal' match_ element →
  connector connectPrevious element = negb (roundNumber =? 1)%nat
  ∧ connector connectFinal element
    = bool_decide (roundNumber = roundCount) && bool_decide (connectFinal' = Some true).
Proof.
  intros (w & w' & _ & Hcreate).
  apply createBracketMatch_returned in Hcreate as [_ Hconnection].
  unfold connector. rewrite Hconnection. cbn. split; [done|].
  f_equal. destruct (Nat.eqb_spec roundNumber roundCount).
  - by rewrite bool_decide_eq_true_2.
  - by rewrite bool_decide_eq_false_2.
Qed.

Lemma renderBracket_connectors root matchesByRound roundName bracketType connectFinal'
    v root' v' :
  renderBracket root matchesByRound roundName bracketType connectFinal' v
  = (Returned root', v') →
  ∃ groupId rounds,
    root' = root ++ [Dom.Bracket groupId rounds]
    ∧ ∀ extra, bracketConnectors (length matchesByRound)
                 (bool_decide (connectFinal' = Some true))
                 (Dom.Bracket groupId (rounds ++ extra)).
Proof.
  intros Hrun.
  apply renderBracket_returned in Hrun as (groupId & rounds & -> & Hlen & Hne & Hrounds).
  exists groupId, rounds. split; [done|]. intros extra.
  exists groupId, (rounds ++ extra). split; [done|]. split.
  - rewrite length_app. destruct matchesByRound; [done|]. simpl in *. lia.
  - intros i round Hi Hround.
    rewrite lookup_app_l in Hround by lia.
    destruct (lookup_lt_is_Some_2 matchesByRound i Hi) as [matches Hmatches].
    destruct (Hrounds i matches round Hmatches Hround) as (Hmatches_ne & _ & Hall).
    split; [|split].
    + intros Hnil. rewrite Hnil in Hall. apply Forall2_length in Hall.
      destruct matches; [done | discriminate].
    + intros ->. eapply Forall2_Forall_r; [exact Hall|].
      apply Forall_forall. intros m _ element Hmatch.
      by apply bracketMatch_connectors in Hmatch as [-> _].
    + eapply Forall2_Forall_r; [exact Hall|].
      apply Forall_forall. intros m _ element Hmatch.
      by apply bracketMatch_connectors in Hmatch as [_ ->].
Qed.

(** [renderFinal] leaves every bracket in place, the upper one with more
    rounds. *)
Lemma renderFinal_brackets root finalType matches v root' v' j groupId rounds :
  renderFinal root finalType matches v = (Returned root', v') →
  root !! j = Some (Dom.Bracket groupId rounds) →
  ∃ extra, root' !! j = Some (Dom.Bracket groupId (rounds ++ extra)).
Proof.
  intros Hrun Hj.
  apply renderFinal_altered in Hrun as (i & first & new & _ & _ & -> & _).
  by apply appendRounds_lookup.
Qed.
End Connectors.

(** C5. In the fragment that [renderSingleElimination] and
    [renderDoubleElimination] return, the brackets they rendered are such
    that (with [getBracketConnection] as the spec gives it) no match of round
    1 is connected backward; the matches connected forward to a final group
    are those of the last round of the winner bracket of a double elimination
    when its third group (the final group) is there, and none when it is not;
    the bracket of a single elimination and the loser bracket have none. *)
Theorem elimination_connectors `{Lang, Helpers, DomBackend}
    (root : list Dom.Node) (matchesByGroup : list (list Match.t))
    (v : Viewer.t) (root' : list Dom.Node) (v' : Viewer.t) :
  (renderSingleElimination root matchesByGroup v = (Returned root', v') →
     ∃ bracket node,
       matchesByGroup !! 0%nat = Some bracket
       ∧ root' !! length root = Some node
       ∧ bracketConnectors (length (splitBy bracket Match.round_id)) false node)
  ∧ (renderDoubleElimination root matchesByGroup v = (Returned root', v') →
     ∃ winners node,
       matchesByGroup !! 0%nat = Some winners
       ∧ root' !! length root = Some node
       ∧ bracketConnectors (length (splitBy winners Match.round_id))
                           (bool_decide (matchesByGroup !! 2%nat ≠ None)) node
       ∧ ∀ losers, matchesByGroup !! 1%nat = Some losers →
           ∃ node, root' !! S (length root) = Some node
                   ∧ bracketConnectors (length (splitBy losers Match.round_id)) false node).
Proof.
  split.
  - unfold renderSingleElimination. intros Hrun.
    apply bind_inv_returned in Hrun as (bracket & v1 & Hbracket & Hrun).
    apply bind_inv_returned in Hrun as (root1 & v2 & Hrender & Hrun).
    unfold index in Hbracket.
    destruct (matchesByGroup !! 0%nat) as [b|] eqn:Hb; [|discriminate].
    injection Hbracket as -> ->.
    apply renderBracket_connectors in Hrender as (groupId & rounds & -> & Hconnectors).
    exists bracket. destruct (matchesByGroup !! 1%nat) as [final|].
    + eapply renderFinal_brackets in Hrun as [extra Hnode];
        [|by apply list_lookup_middle].
      eexists. split; [done|]. split; [exact Hnode|]. apply Hconnectors.
    + injection Hrun as <- _. eexists. split; [done|].
      split; [by apply list_lookup_middle|].
      specialize (Hconnectors []). by rewrite app_nil_r in Hconnectors.
  - unfold renderDoubleElimination. intros Hrun.
    apply bind_inv_returned in Hrun as (winners & v1 & Hwinners & Hrun).
    apply bind_inv_returned in Hrun as (root1 & v2 & Hrender & Hrun).
    apply bind_inv_returned in Hrun as (root2 & v3 & Hlosers & Hrun).
    unfold index in Hwinners.
    destruct (matchesByGroup !! 0%nat) as [w|] eqn:Hw; [|discriminate].
    injection Hwinners as -> ->.
    apply renderBracket_connectors in Hrender as (groupId & rounds & -> & Hconnectors).
    assert (bool_decide (Some (bool_decide (matchesByGroup !! 2%nat ≠ None)) = Some true)
            = bool_decide (matchesByGroup !! 2%nat ≠ None)) as Hfinal.
    { by destruct (bool_decide (matchesByGroup !! 2%nat ≠ None)). }
    rewrite Hfinal in Hconnectors. clear Hfinal.
    exists winners.
    (* the fragment before the final group is rendered *)
    assert (root2 !! length root = Some (Dom.Bracket groupId rounds)
            ∧ ∀ losers, matchesByGroup !! 1%nat = Some losers →
                ∃ groupId' rounds',
                  root2 !! S (length root) = Some (Dom.Bracket groupId' rounds')
                  ∧ ∀ extra, bracketConnectors (length (splitBy losers Match.round_id)) false
                               (Dom.Bracket groupId' (rounds' ++ extra)))
      as [Hupper Hlower].
    { destruct (matchesByGroup !! 1%nat) as [losers|].
      - apply renderBracket_connectors in Hlosers as (groupId' & rounds' & -> & Hlower).
        split.
        + rewrite lookup_app_l by (rewrite length_app; simpl; lia).
          by apply list_lookup_middle.
        + intros ? [= <-]. exists groupId', rounds'. split; [|done].
          apply list_lookup_middle. rewrite length_app. simpl. lia.
      - injection Hlosers as <- _. split; [by apply list_lookup_middle | done]. }
    destruct (matchesByGroup !! 2%nat) as [final|].
    + destruct (renderFinal_brackets _ _ _ _ _ _ _ _ _ Hrun Hupper) as [extra Hnode].
      eexists. split; [done|]. split; [exact Hnode|]. split; [apply Hconnectors|].
      intros losers Hsome.
      destruct (Hlower losers Hsome) as (groupId' & rounds' & Hnode' & Hconnectors').
      destruct (renderFinal_brackets _ _ _ _ _ _ _ _ _ Hrun Hnode') as [extra' Hnode''].
      eexists. split; [exact Hnode''|]. apply Hconnectors'.
    + injection Hrun as <- _.
      eexists. split; [done|]. split; [exact Hupper|]. split.
      { specialize (Hconnectors []). by rewrite app_nil_r in Hconnectors. }
      intros losers Hsome.
      destruct (Hlower losers Hsome) as (groupId' & rounds' & Hnode' & Hconnectors').
      eexists. split; [exact Hnode'|].
      specialize (Hconnectors' []). by rewrite app_nil_r in Hconnectors'.
Qed.

(** The sample double elimination, from the fragment that holds its title. *)
Definition openGroups : list (list Match.t) :=
  splitBy (ViewerData.matches Sample.open) Match.group_id.

Definition openRun : Outcome (list Dom.Node) * Viewer.t :=
  renderDoubleElimination [Dom.Title "Open"] openGroups
                          (renderSetup Sample.open None newViewer).2.

Lemma elimination_connectors_witness :
  ∃ winners node,
    openGroups !! 0%nat = Some winners
    ∧ fragment openRun !! 1%nat = Some node
    ∧ bracketConnectors (length (splitBy winners Match.round_id))
                        (bool_decide (openGroups !! 2%nat ≠ None)) node
    ∧ ∀ losers, openGroups !! 1%nat = Some losers →
        ∃ node, fragment openRun !! 2%nat = Some node
                ∧ bracketConnectors (length (splitBy losers Match.round_id)) false node.
Proof.
  apply (proj2 (elimination_connectors [Dom.Title "Open"] openGroups
                  (renderSetup Sample.open None newViewer).2 (fragment openRun) openRun.2)).
  vm_compute. reflexivity.
Defined.

(** In the sample, the final of the winner bracket (match 12) is the one
    match connected to the final group, and no first round is connected
    backward. *)
Example open_connectors :
  match fragment openRun with
  | [_; Dom.Bracket _ (w1 :: w2 :: _); Dom.Bracket _ [l1; l2]] =>
      (Dom.matchId <$> filter (λ element, connector connectFinal element = true)
                              (Dom.matches w1 ++ Dom.matches w2
                               ++ Dom.matches l1 ++ Dom.matches l2)) = [12]
      ∧ connector connectPrevious <$> (Dom.matches w1 ++ Dom.matches l1)
        = [false; false; false]
  | _ => False
  end.
Proof. vm_compute. done. Qed.

(** ** C4: the hints of a loser bracket *)

(** The slot holds an opponent that is not known yet, expected from the
    position [s]. *)
Definition pendingAt (s : Slot) (opponent : option ParticipantResult.t) : Prop :=
  ∃ participant, opponent = Some participant
                 ∧ ParticipantResult.id participant = None
                 ∧ ParticipantResult.position participant = Some (slotPosition s).

(** The round has hints: it is not the first one, or the first round was
    skipped. *)
Definition hinted (v : Viewer.t) (roundNumber : nat) : Prop :=
  roundNumber ≠ 1%nat ∨ Viewer.skipFirstRound v = true.

Definition originsShown (v : Viewer.t) : Prop :=
  Config.showSlotsOrigin (Viewer.config v) = true
  ∧ Config.showLowerBracketSlotsOrigin (Viewer.config v) = true.

Section Hints.
Context `{Lang, Helpers, DomBackend}.

Lemma freshDropSlot_parity r1 r2 :
  Nat.odd r1 = Nat.odd r2 → freshDropSlot r1 = freshDropSlot r2.
Proof. unfold freshDropSlot. by intros ->. Qed.

Lemma freshDropSlot_alternates r : freshDropSlot (S r) = otherSlot (freshDropSlot r).
Proof.
  unfold freshDropSlot. rewrite Nat.odd_succ, <- Nat.negb_odd.
  destruct (Nat.odd r); simpl; [done|]. by destruct freshDropOdd.
Qed.

Lemma createMatch_participants match_ location connection label hint roundNumber
    v element v' :
  createMatch match_ location connection label hint roundNumber v = (Returned element, v') →
  ∃ v1 v2,
    createParticipant (Match.opponent1 match_) hint location roundNumber v
    = (Returned (Dom.participant1 element), v1)
    ∧ createParticipant (Match.opponent2 match_) hint location roundNumber v1
      = (Returned (Dom.participant2 element), v2).
Proof.
  unfold createMatch. intros Hrun.
  apply bind_inv_returned in Hrun as (p1 & v1 & Hp1 & Hrun).
  apply bind_inv_returned in Hrun as (p2 & v2 & Hp2 & Hrun).
  injection Hrun as <- _. by exists v1, v2.
Qed.

Lemma createParticipant_pending participant hint location roundNumber v element v' :
  ParticipantResult.id participant = None →
  createParticipant (Some participant) hint location roundNumber v = (Returned element, v') →
  Dom.hint (Dom.name element) = shownHint (Viewer.config v) participant hint location.
Proof.
  intros Hid. rewrite createParticipant_unlisted_run by (by rewrite Hid).
  rewrite Hid. by intros [= <- _].
Qed.

(** The hint of a pending opponent in a hinted round of a loser bracket. *)
Lemma loser_hint v roundNumber roundCount s participant :
  hinted v roundNumber → originsShown v →
  ParticipantResult.position participant = Some (slotPosition s) →
  shownHint (Viewer.config v) participant
            (getOriginHint roundNumber roundCount (Viewer.skipFirstRound v) LoserBracket)
            (Some LoserBracket)
  = Some (originPhrase
            (if decide (s = freshDropSlot roundNumber) then WinnerBracketDrop
             else PreviousRound) (slotPosition s)).
Proof.
  intros Hhinted [Hshow Hlower] Hposition.
  unfold shownHint, getOriginHint. rewrite Hposition, Hshow, Hlower.
  assert ((roundNumber =? 1)%nat && negb (Viewer.skipFirstRound v) = false) as ->.
  { destruct Hhinted as [Hne| ->]; [|by rewrite andb_false_r].
    apply Nat.eqb_neq in Hne. by rewrite Hne. }
  cbn. do 2 f_equal. unfold upstream.
  destruct (decide (s = freshDropSlot roundNumber)) as [->|Hne].
  - by rewrite decide_True.
  - rewrite decide_False; [done|]. intros Heq. apply Hne.
    by destruct s, (freshDropSlot roundNumber).
Qed.
End Hints.

(** C4 (with [getOriginHint] as the spec gives it). For two rounds of the
    same parity of a loser bracket, both with hints, there is one slot
    position such that in every match of these rounds an opponent not known
    yet is shown the hint of a loser dropped from the winner bracket if it is
    expected from that position, and the hint of the previous round of the
    loser bracket if it is expected from the other position. *)
Theorem loser_bracket_hint_parity `{Lang, Helpers, DomBackend}
    (v : Viewer.t) (roundCount : nat) (connectFinal : option bool) (r1 r2 : nat) :
  Nat.odd r1 = Nat.odd r2 →
  hinted v r1 → hinted v r2 → originsShown v →
  ∃ fresh : Slot,
    ∀ roundNumber match_ w element w',
      roundNumber ∈ [r1; r2] → extends v w →
      createBracketMatch roundNumber roundCount match_ LoserBracket connectFinal w
      = (Returned element, w') →
      ∀ s,
        let phrase :=
          originPhrase (if decide (s = fresh) then WinnerBracketDrop else PreviousRound)
                       (slotPosition s) in
        (pendingAt s (Match.opponent1 match_) →
           Dom.hint (Dom.name (Dom.participant1 element)) = Some phrase)
        ∧ (pendingAt s (Match.opponent2 match_) →
           Dom.hint (Dom.name (Dom.participant2 element)) = Some phrase).
Proof.
  intros Hparity Hr1 Hr2 Hshown. exists (freshDropSlot r1).
  intros roundNumber match_ w element w' Hround Hw Hcreate s phrase. subst phrase.
  assert (freshDropSlot r1 = freshDropSlot roundNumber ∧ hinted v roundNumber)
    as [-> Hhinted].
  { apply elem_of_cons in Hround as [->|Hround]; [done|].
    apply list_elem_of_singleton in Hround as ->.
    split; [by apply freshDropSlot_parity | done]. }
  unfold createBracketMatch in Hcreate.
  apply bind_inv_returned in Hcreate as (w0 & ? & [= <- <-] & Hcreate).
  apply createMatch_participants in Hcreate as (w1 & w2 & Hp1 & Hp2).
  destruct Hw as [[Hconfig _ _ _ _] Hskip].
  pose proof (createParticipant_extends (Match.opponent1 match_)
                (getOriginHint roundNumber roundCount (Viewer.skipFirstRound w) LoserBracket)
                (Some LoserBracket) (Some roundNumber) w) as [[Hconfig1 _ _ _ _] _].
  rewrite Hp1 in Hconfig1. cbn [snd] in Hconfig1.
  assert (hinted w roundNumber ∧ originsShown w) as [Hhinted' Hshown'].
  { unfold hinted, originsShown. by rewrite Hskip, Hconfig. }
  split.
  - intros (participant & Hopponent & Hid & Hposition). rewrite Hopponent in Hp1.
    rewrite (createParticipant_pending _ _ _ _ _ _ _ Hid Hp1). by apply loser_hint.
  - intros (participant & Hopponent & Hid & Hposition). rewrite Hopponent in Hp2.
    rewrite (createParticipant_pending _ _ _ _ _ _ _ Hid Hp2), Hconfig1.
    by apply loser_hint.
Qed.

(** The state in which the stages of the sample double elimination are
    processed. *)
Definition openViewer : Viewer.t := (renderSetup Sample.open None newViewer).2.

Lemma loser_bracket_hint_parity_witness :
  ∃ fresh : Slot,
    ∀ roundNumber match_ w element w',
      roundNumber ∈ [2; 4]%nat → extends openViewer w →
      createBracketMatch roundNumber 4 match_ LoserBracket None w = (Returned element, w') →
      ∀ s,
        let phrase :=
          originPhrase (if decide (s = fresh) then WinnerBracketDrop else PreviousRound)
                       (slotPosition s) in
        (pendingAt s (Match.opponent1 match_) →
           Dom.hint (Dom.name (Dom.participant1 element)) = Some phrase)
        ∧ (pendingAt s (Match.opponent2 match_) →
           Dom.hint (Dom.name (Dom.participant2 element)) = Some phrase).
Proof.
  apply (loser_bracket_hint_parity openViewer 4 None 2 4).
  - reflexivity.
  - left. intros E. discriminate E.
  - left. intros E. discriminate E.
  - split; reflexivity.
Defined.

(** A match of a loser bracket whose two opponents are not known yet,
    expected from the positions 1 and 2: with the sample locale, where the
    fresh drop of the odd rounds is in slot 1, the rounds 2 and 4 show the same
    hints and the round 3 the opposite ones. *)
Definition pendingMatch : Match.t :=
  Sample.match_ 20 1 11 112 1 (Sample.pending 1) (Sample.pending 2).

Definition pendingHints (roundNumber : nat) : list (option string) :=
  match (createBracketMatch roundNumber 4 pendingMatch LoserBracket None openViewer).1 with
  | Returned element =>
      [Dom.hint (Dom.name (Dom.participant1 element));
       Dom.hint (Dom.name (Dom.participant2 element))]
  | Thrown _ => []
  end.

Example pendingHints_by_parity :
  pendingHints 2 = [Some "Winner of match 1"; Some "Loser of WB match 2"]
  ∧ pendingHints 4 = pendingHints 2
  ∧ pendingHints 3 = [Some "Loser of WB match 1"; Some "Winner of match 2"]
  ∧ pendingHints 1 = [None; None].
Proof. vm_compute. done. Qed.

(** * Further properties of the engine *)

(** ** A participant element *)

Section Participant.
Context `{Lang, Helpers, DomBackend}.

Lemma renderParticipantOrigin_pure name participant location roundNumber v :
  ∃ name', renderParticipantOrigin name participant location roundNumber v
           = (Returned name', v)
           ∧ Dom.innerText name' = Dom.innerText name
           ∧ Dom.hint name' = Dom.hint name.
Proof.
  unfold renderParticipantOrigin.
  destruct (ParticipantResult.position participant), location; eauto.
  unfold bind, get.
  destruct (bool_decide _); eauto. destruct (negb _); eauto. destruct (_ && _); eauto.
Qed.

Lemma renderHint_pure name participant hint location v :
  ∃ name', renderHint name participant hint location v = (Returned name', v)
           ∧ Dom.origin name' = Dom.origin name
           ∧ (Dom.hint name' ≠ Dom.hint name → Dom.innerText name' = Dom.innerText name).
Proof.
  unfold renderHint.
  destruct hint, (ParticipantResult.position participant); eauto.
  unfold bind, get. destruct (negb _); eauto. destruct (_ && _); eauto.
Qed.

(** [renderParticipant] only fills the containers: the state is as it was;
    the name container gets either the name of the participant found, with
    no hint, or no origin. *)
Lemma renderParticipant_pure containers participant hint location roundNumber v :
  Dom.name containers = Dom.emptyName →
  ∃ element,
    renderParticipant containers participant hint location roundNumber v
    = (Returned element, v)
    ∧ Dom.handle element = Dom.handle containers
    ∧ Dom.participantId element = Dom.participantId containers
    ∧ Dom.result element = scoreText participant
    ∧ match findParticipant (Viewer.participants v) (ParticipantResult.id participant) with
      | Some found =>
          Dom.innerText (Dom.name element) = Participant.name found
          ∧ Dom.title element = Some (Participant.name found)
          ∧ Dom.hint (Dom.name element) = None
      | None =>
          Dom.title element = Dom.title containers
          ∧ Dom.innerText (Dom.name element) = ""
          ∧ Dom.origin (Dom.name element) = None
      end.
Proof.
  intros Hname. unfold renderParticipant. unfold bind at 1. cbn [get].
  destruct (findParticipant _ _) as [found|].
  - destruct (renderParticipantImage_name (setInnerText (Dom.name containers)
                (Participant.name found)) (Participant.id found) v)
      as (name1 & Himage & Hhint1 & _).
    assert (Dom.innerText name1 = Participant.name found) as Htext1.
    { unfold renderParticipantImage, bind, get in Himage.
      destruct (List.find _ _); by injection Himage as <-. }
    destruct (renderParticipantOrigin_pure name1 participant location roundNumber v)
      as (name2 & Horigin & Htext2 & Hhint2).
    eexists. unfold bind. rewrite Himage, Horigin. split; [done|]. cbn.
    rewrite Htext2, Hhint2, Hhint1, Htext1, Hname. done.
  - destruct (renderHint_pure (Dom.name containers) participant hint location v)
      as (name1 & Hhint & Horigin & Htext).
    eexists. unfold bind. rewrite Hhint. split; [done|]. cbn.
    rewrite Horigin, Hname. repeat split; try done.
    unfold renderHint in Hhint. rewrite Hname in Hhint.
    destruct hint, (ParticipantResult.position participant);
      try (by injection Hhint as <-).
    unfold bind, get in Hhint. destruct (negb _); [by injection Hhint as <-|].
    destruct (_ && _); by injection Hhint as <-.
Qed.

(** What [createParticipant] does: it creates one element, fills it without
    touching the state, and registers it for hover if there is an id. *)
Lemma createParticipant_run participant hint location roundNumber v :
  ∃ element,
    createParticipant participant hint location roundNumber v
    = (match participant ≫= ParticipantResult.id with
       | Some id => setupMouseHover id (Viewer.created v);; ret element
       | None => ret element
       end) (set_created (S (Viewer.created v)) v)
    ∧ Dom.handle element = Viewer.created v
    ∧ Dom.participantId element = participant ≫= ParticipantResult.id
    ∧ (Dom.hint (Dom.name element) = None ∨ Dom.origin (Dom.name element) = None)
    ∧ match participant with
      | None => Dom.name element = Dom.mkName BYE None None None
                ∧ Dom.title element = None ∧ Dom.result element = ""
      | Some opponent =>
          Dom.result element = scoreText opponent
          ∧ match findParticipant (Viewer.participants v) (ParticipantResult.id opponent) with
            | Some found => Dom.innerText (Dom.name element) = Participant.name found
                            ∧ Dom.title element = Some (Participant.name found)
            | None => Dom.innerText (Dom.name element) = "" ∧ Dom.title element = None
            end
      end.
Proof.
  unfold createParticipant. unfold bind at 1. cbn [createElement].
  destruct participant as [opponent|].
  - destruct (renderParticipant_pure
                (Dom.mkParticipant (Viewer.created v) (Some opponent ≫= ParticipantResult.id)
                                   None Dom.emptyName "" None)
                opponent hint location roundNumber (set_created (S (Viewer.created v)) v)
                eq_refl) as (element & Hrun & Hhandle & Hid & Hresult & Hname).
    exists element. unfold bind at 1. rewrite Hrun.
    split; [by destruct (Some opponent ≫= ParticipantResult.id)|].
    split; [done|]. split; [done|].
    cbn [Viewer.participants set_created] in Hname.
    destruct (findParticipant _ _).
    + destruct Hname as (Htext & Htitle & Hhint). split; [by left|]. by repeat split.
    + destruct Hname as (Htitle & Htext & Horigin). split; [by right|]. by repeat split.
  - eexists. unfold bind at 1. cbn. split; [done|]. repeat split; try done. by left.
Qed.
End Participant.

(** The handle of the element that [createParticipant] returns. *)
Lemma createParticipant_handle `{Lang, Helpers, DomBackend}
    (participant : option ParticipantResult.t) (hint : OriginHint)
    (location : option BracketType) (roundNumber : option nat)
    (v : Viewer.t) (element : Dom.ParticipantElement) (v' : Viewer.t) :
  createParticipant participant hint location roundNumber v = (Returned element, v') →
  Dom.handle element = Viewer.created v ∧ Viewer.created v' = S (Viewer.created v).
Proof.
  destruct (createParticipant_run participant hint location roundNumber v)
    as (element' & -> & Hhandle & _).
  intros Hrun. destruct (participant ≫= ParticipantResult.id) as [id|].
  - apply bind_inv_returned in Hrun as ([] & v1 & Hhover & [= <- <-]).
    split; [done|].
    unfold setupMouseHover, bind, get in Hhover. cbn in Hhover.
    destruct (negb _); [by injection Hhover as <-|].
    destruct (_ !! _); [by injection Hhover as <-|discriminate].
  - by injection Hrun as <- <-.
Qed.

(** A participant element: it has the handle of the element created for it,
    which is the only one created; it never carries both a hint and an origin;
    a BYE shows the text of [lang.BYE] and nothing else, and changes nothing in
    the hover index; a participant that is found shows its name, as text and
    as title, one that is not found shows no name and no title. *)
Theorem createParticipant_element `{Lang, Helpers, DomBackend}
    (participant : option ParticipantResult.t) (hint : OriginHint)
    (location : option BracketType) (roundNumber : option nat)
    (v : Viewer.t) (element : Dom.ParticipantElement) (v' : Viewer.t) :
  createParticipant participant hint location roundNumber v = (Returned element, v') →
  Dom.handle element = Viewer.created v
  ∧ Viewer.created v' = S (Viewer.created v)
  ∧ (Dom.hint (Dom.name element) = None ∨ Dom.origin (Dom.name element) = None)
  ∧ match participant with
    | None =>
        Dom.name element = Dom.mkName BYE None None None
        ∧ Dom.title element = None
        ∧ Viewer.participantRefs v' = Viewer.participantRefs v
    | Some opponent =>
        Dom.result element = scoreText opponent
        ∧ match findParticipant (Viewer.participants v) (ParticipantResult.id opponent) with
          | Some found => Dom.innerText (Dom.name element) = Participant.name found
                          ∧ Dom.title element = Some (Participant.name found)
          | None => Dom.innerText (Dom.name element) = "" ∧ Dom.title element = None
          end
    end.
Proof.
  destruct (createParticipant_run participant hint location roundNumber v)
    as (element' & -> & Hhandle & _ & Hexclusive & Hshown).
  intros Hrun.
  assert (element' = element ∧ Viewer.created v' = S (Viewer.created v)
          ∧ (participant = None → Viewer.participantRefs v' = Viewer.participantRefs v))
    as (-> & Hcreated & Hrefs).
  { destruct (participant ≫= ParticipantResult.id) as [id|] eqn:Hid.
    - apply bind_inv_returned in Hrun as ([] & v1 & Hhover & [= <- <-]).
      pose proof (setupMouseHover_extends id (Viewer.created v)
                    (set_created (S (Viewer.created v)) v)) as Hext.
      rewrite Hhover in Hext. cbn [snd] in Hext.
      split; [done|]. split; [|by intros ->].
      unfold setupMouseHover, bind, get in Hhover. cbn in Hhover.
      destruct (negb _); [by injection Hhover as <-|].
      destruct (_ !! _); [by injection Hhover as <-|discriminate].
    - by injection Hrun as <- <-. }
  split; [done|]. split; [done|]. split; [done|].
  destruct participant; [done|]. destruct Hshown as (? & ? & _). auto.
Qed.

Lemma createParticipant_element_witness :
  ∃ element v',
    createParticipant (Sample.opponent 3 (Some Win)) None None None openViewer
    = (Returned element, v')
    ∧ Dom.handle element = 0%nat
    ∧ Dom.innerText (Dom.name element) = "c"
    ∧ Dom.title element = Some "c".
Proof.
  eexists _, _. split; [vm_compute; reflexivity|].
  destruct (createParticipant_element (Sample.opponent 3 (Some Win)) None None None
              openViewer _ _ eq_refl) as (Hhandle & _ & _ & _ & Htext & Htitle).
  split; [exact Hhandle|]. split; [exact Htext | exact Htitle].
Defined.

(** ** The hover index across a call of [render] *)

(** From [v] to [v'] elements were created and registered: each list of the
    hover index got new elements, distinct, created in between, and no new
    element was registered for two participants. *)
Record registers (v v' : Viewer.t) : Prop := {
  registers_created : (Viewer.created v ≤ Viewer.created v')%nat;
  registers_refs : ∀ id,
    match Viewer.participantRefs v !! id with
    | Some refs =>
        ∃ more : list Handle,
          Viewer.participantRefs v' !! id = Some (refs ++ more)
          ∧ NoDup more
          ∧ Forall (λ element : Handle,
                      Viewer.created v ≤ element < Viewer.created v')%nat more
    | None => Viewer.participantRefs v' !! id = None
    end;
  registers_once : ∀ id1 id2 refs1 refs2 more1 more2 element,
    Viewer.participantRefs v !! id1 = Some refs1 →
    Viewer.participantRefs v !! id2 = Some refs2 →
    Viewer.participantRefs v' !! id1 = Some (refs1 ++ more1) →
    Viewer.participantRefs v' !! id2 = Some (refs2 ++ more2) →
    element ∈ more1 → element ∈ more2 → id1 = id2;
}.

Lemma registers_same_refs v v' :
  (Viewer.created v ≤ Viewer.created v')%nat →
  Viewer.participantRefs v' = Viewer.participantRefs v →
  registers v v'.
Proof.
  intros Hcreated Hrefs. split; [done| |].
  - intros id. rewrite Hrefs. destruct (_ !! id) as [refs|]; [|done].
    exists []. rewrite app_nil_r. split; [done|]. split; constructor.
  - intros id1 id2 refs1 refs2 more1 more2 element H1 _ H1' _ Hin _.
    rewrite Hrefs, H1 in H1'. injection H1' as H1'.
    rewrite <- (app_nil_r refs1) in H1' at 1. apply app_inv_head in H1'. subst more1.
    by apply elem_of_nil in Hin.
Qed.

Global Instance registers_preorder : PreOrder registers.
Proof.
  split.
  - intros v. by apply registers_same_refs.
  - intros v1 v2 v3 [c12 r12 o12] [c23 r23 o23]. split; [lia| |].
    + intros id. specialize (r12 id). specialize (r23 id).
      destruct (Viewer.participantRefs v1 !! id) as [refs|]; [|by rewrite r12 in r23].
      destruct r12 as (more1 & E1 & Hnodup1 & Hrange1). rewrite E1 in r23.
      destruct r23 as (more2 & E2 & Hnodup2 & Hrange2).
      exists (more1 ++ more2). split; [by rewrite E2, app_assoc|]. split.
      * apply NoDup_app. split; [done|]. split; [|done].
        intros element Hin1 Hin2.
        rewrite Forall_forall in Hrange1, Hrange2.
        specialize (Hrange1 _ Hin1). specialize (Hrange2 _ Hin2). lia.
      * apply Forall_app. split.
        -- eapply Forall_impl; [exact Hrange1|]. intros ? ?. simpl in *. lia.
        -- eapply Forall_impl; [exact Hrange2|]. intros ? ?. simpl in *. lia.
    + intros id1 id2 refs1 refs2 more1 more2 element H1 H2 H1' H2' Hin1 Hin2.
      pose proof (r12 id1) as R1. pose proof (r12 id2) as R2.
      rewrite H1 in R1. rewrite H2 in R2.
      destruct R1 as (m1 & E1 & _ & Hrange1). destruct R2 as (m2 & E2 & _ & Hrange2).
      pose proof (r23 id1) as R1'. pose proof (r23 id2) as R2'.
      rewrite E1 in R1'. rewrite E2 in R2'.
      destruct R1' as (m1' & E1' & _ & Hrange1'). destruct R2' as (m2' & E2' & _ & Hrange2').
      rewrite E1', <- app_assoc in H1'. injection H1' as H1'. apply app_inv_head in H1'.
      rewrite E2', <- app_assoc in H2'. injection H2' as H2'. apply app_inv_head in H2'.
      subst more1 more2.
      rewrite Forall_forall in Hrange1, Hrange2, Hrange1', Hrange2'.
      apply elem_of_app in Hin1 as [Hin1|Hin1], Hin2 as [Hin2|Hin2].
      * by eapply (o12 id1 id2).
      * specialize (Hrange1 _ Hin1). specialize (Hrange2' _ Hin2). lia.
      * specialize (Hrange1' _ Hin1). specialize (Hrange2 _ Hin2). lia.
      * eapply (o23 id1 id2); [exact E1 | exact E2 | | | exact Hin1 | exact Hin2].
        -- by rewrite E1'.
        -- by rewrite E2'.
Qed.

Section Registers.
Context `{Lang, Helpers, DomBackend}.

Lemma createElement_registers : preserves registers createElement.
Proof. intros v. apply registers_same_refs; simpl; [lia | done]. Qed.

(** An element is created and registered at once. *)
Lemma register_registers id v :
  registers v (setupMouseHover id (Viewer.created v)
                               (set_created (S (Viewer.created v)) v)).2.
Proof.
  unfold setupMouseHover, bind, get. cbn.
  destruct (negb _); [apply registers_same_refs; simpl; [lia | done]|].
  destruct (Viewer.participantRefs v !! id) as [refs|] eqn:E;
    [|apply registers_same_refs; simpl; [lia | done]].
  cbn. split; cbn; [lia| |].
  - intros id'. destruct (decide (id = id')) as [<-|Hne].
    + rewrite E, lookup_insert_eq. exists [Viewer.created v].
      split; [done|]. split; [apply NoDup_singleton|].
      constructor; [lia | constructor].
    + rewrite lookup_insert_ne by done.
      destruct (_ !! id') as [refs'|]; [|done].
      exists []. rewrite app_nil_r. split; [done|]. split; constructor.
  - intros id1 id2 refs1 refs2 more1 more2 element E1 E2 E1' E2' Hin1 Hin2.
    destruct (decide (id = id1)) as [<-|Hne1]; destruct (decide (id = id2)) as [<-|Hne2];
      try done.
    + rewrite lookup_insert_ne, E2 in E2' by done. injection E2' as E2'.
      rewrite <- (app_nil_r refs2) in E2' at 1. apply app_inv_head in E2'. subst more2.
      by apply elem_of_nil in Hin2.
    + rewrite lookup_insert_ne, E1 in E1' by done. injection E1' as E1'.
      rewrite <- (app_nil_r refs1) in E1' at 1. apply app_inv_head in E1'. subst more1.
      by apply elem_of_nil in Hin1.
    + rewrite lookup_insert_ne, E1 in E1' by done. injection E1' as E1'.
      rewrite <- (app_nil_r refs1) in E1' at 1. apply app_inv_head in E1'. subst more1.
      by apply elem_of_nil in Hin1.
Qed.

Lemma createParticipant_registers participant hint location roundNumber :
  preserves registers (createParticipant participant hint location roundNumber).
Proof.
  intros v.
  destruct (createParticipant_run participant hint location roundNumber v)
    as (element & -> & _).
  destruct (participant ≫= ParticipantResult.id) as [id|].
  - pose proof (register_registers id v) as Hregister. unfold bind.
    destruct (setupMouseHover _ _ _) as [[[]|e] v1]; exact Hregister.
  - apply registers_same_refs; simpl; [lia | done].
Qed.

Lemma createMatch_registers m loc c l hint rn :
  preserves registers (createMatch m loc c l hint rn).
Proof. unfold createMatch. frame; apply createParticipant_registers. Qed.

Lemma createRankingRow_registers item : preserves registers (createRankingRow item).
Proof.
  unfold createRankingRow. apply preserves_forEach; [apply _|].
  intros row [prop data]. apply preserves_bind; [apply _ | apply preserves_get; apply _|].
  intros v0. destruct (if bool_decide _ then _ else _) as [participant|].
  - intros v. unfold bind at 1. cbn [createElement fst snd].
    pose proof (register_registers (Participant.id participant) v) as Hregister.
    unfold bind. destruct (setupMouseHover _ _ _) as [[[]|e] v1]; exact Hregister.
  - frame. apply createElement_registers.
Qed.

Lemma renderStage_registers root data : preserves registers (renderStage root data).
Proof.
  unfold renderStage, renderRoundRobin, renderElimination, renderSingleElimination,
    renderDoubleElimination, renderBracket, renderFinal, createRanking,
    createBracketMatch, createFinalMatch.
  frame; auto using createMatch_registers, createRankingRow_registers.
  intros v. by apply registers_same_refs.
Qed.

Lemma renderStages_registers data root stages :
  preserves registers (renderStages data root stages).
Proof. unfold renderStages. frame. apply renderStage_registers. Qed.
End Registers.

(** The hover index is in order: the elements of a list are distinct and
    were created by the viewer, and no element is in the lists of two
    participants. *)
Definition wellRegistered (v : Viewer.t) : Prop :=
  (∀ id refs, Viewer.participantRefs v !! id = Some refs →
     NoDup refs ∧ Forall (λ element : Handle, element < Viewer.created v)%nat refs)
  ∧ (∀ id1 id2 refs1 refs2 (element : Handle),
       Viewer.participantRefs v !! id1 = Some refs1 →
       Viewer.participantRefs v !! id2 = Some refs2 →
       element ∈ refs1 → element ∈ refs2 → id1 = id2).

Lemma registers_wellRegistered v v' :
  wellRegistered v → registers v v' → wellRegistered v'.
Proof.
  intros [Hlists Hone] [Hcreated Hrefs Honce]. split.
  - intros id refs' Hid. specialize (Hrefs id).
    destruct (Viewer.participantRefs v !! id) as [refs|] eqn:E; [|congruence].
    destruct Hrefs as (more & Hid' & Hnodup & Hrange).
    rewrite Hid in Hid'. injection Hid' as ->.
    destruct (Hlists id refs E) as [Hnodup0 Hbelow]. split.
    + apply NoDup_app. split; [done|]. split; [|done].
      intros element Hin1 Hin2. rewrite Forall_forall in Hbelow, Hrange.
      specialize (Hbelow _ Hin1). specialize (Hrange _ Hin2). simpl in *. lia.
    + apply Forall_app. split.
      * eapply Forall_impl; [exact Hbelow|]. intros ? ?. simpl in *. lia.
      * eapply Forall_impl; [exact Hrange|]. intros ? ?. simpl in *. lia.
  - intros id1 id2 refs1' refs2' element Hid1 Hid2 Hin1 Hin2.
    pose proof (Hrefs id1) as R1. pose proof (Hrefs id2) as R2.
    destruct (Viewer.participantRefs v !! id1) as [refs1|] eqn:E1; [|congruence].
    destruct (Viewer.participantRefs v !! id2) as [refs2|] eqn:E2; [|congruence].
    destruct R1 as (more1 & Hid1' & _ & Hrange1). destruct R2 as (more2 & Hid2' & _ & Hrange2).
    rewrite Hid1 in Hid1'. injection Hid1' as ->.
    rewrite Hid2 in Hid2'. injection Hid2' as ->.
    destruct (Hlists id1 refs1 E1) as [_ Hbelow1]. destruct (Hlists id2 refs2 E2) as [_ Hbelow2].
    rewrite Forall_forall in Hbelow1, Hbelow2, Hrange1, Hrange2.
    apply elem_of_app in Hin1 as [Hin1|Hin1], Hin2 as [Hin2|Hin2].
    + by eapply (Hone id1 id2).
    + specialize (Hbelow1 _ Hin1). specialize (Hrange2 _ Hin2). simpl in *. lia.
    + specialize (Hrange1 _ Hin1). specialize (Hbelow2 _ Hin2). simpl in *. lia.
    + by eapply (Honce id1 id2).
Qed.

Lemma resetAll_wellRegistered participants v :
  wellRegistered v →
  wellRegistered (set_participantRefs (resetAll participants (Viewer.participantRefs v)) v).
Proof.
  intros [Hlists Hone]. split.
  - intros id refs. cbn. rewrite resetAll_lookup. case_bool_decide.
    + intros [= <-]. split; constructor.
    + apply Hlists.
  - intros id1 id2 refs1 refs2 element. cbn. rewrite !resetAll_lookup.
    repeat case_bool_decide.
    + intros [= <-] _ Hin. by apply elem_of_nil in Hin.
    + intros [= <-] _ Hin. by apply elem_of_nil in Hin.
    + intros _ [= <-] _ Hin. by apply elem_of_nil in Hin.
    + apply Hone.
Qed.

(** The state that [render] leaves is the one the stages leave. *)
Lemma render_state `{Lang, Helpers, DomBackend} data config v :
  (render data config v).2
  = (renderStages data [] (ViewerData.stages data) (renderSetup data config v).2).2.
Proof.
  rewrite render_run. cbn zeta.
  destruct (renderStages _ _ _ _) as [[root|e] v']; cbn; [|done]. by destruct (findRoot _).
Qed.

(** [render] keeps the hover index in order, whether it returns or throws:
    afterwards the elements of each list are distinct, all were created by
    the viewer, and no element is in the lists of two participants. *)
Theorem render_wellRegistered `{Lang, Helpers, DomBackend}
    (data : ViewerData.t) (config : option PartialConfig.t) (v : Viewer.t) :
  wellRegistered v → wellRegistered (render data config v).2.
Proof.
  intros Hv. rewrite render_run. cbn zeta.
  pose proof (renderStages_registers data [] (ViewerData.stages data)
                (renderSetup data config v).2) as Hregisters.
  assert (wellRegistered (renderSetup data config v).2) as Hsetup.
  { rewrite renderSetup_run. cbn [snd].
    destruct (resetAll_wellRegistered (ViewerData.participants data) v Hv) as [H1' H2'].
    split; [exact H1' | exact H2']. }
  pose proof (registers_wellRegistered _ _ Hsetup Hregisters) as Hafter.
  destruct (renderStages _ _ _ _) as [[root|e] v']; cbn in *; [|done].
  by destruct (findRoot _).
Qed.

Lemma render_wellRegistered_witness :
  wellRegistered (render Sample.open None (render Sample.cup None newViewer).2).2.
Proof.
  apply render_wellRegistered, render_wellRegistered.
  split.
  - intros id refs Hnone. cbn in Hnone. by rewrite lookup_empty in Hnone.
  - intros id1 id2 refs1 refs2 element Hnone. cbn in Hnone.
    by rewrite lookup_empty in Hnone.
Defined.

(** The ids of the hover index after [render], whether it returns or
    throws: every participant of the roster has a list; an id that is not in
    the roster has a list only if it had one, which holds the elements it held
    and possibly more. *)
Theorem render_hover_ids `{Lang, Helpers, DomBackend}
    (data : ViewerData.t) (config : option PartialConfig.t) (v : Viewer.t) (id : Z) :
  let after := Viewer.participantRefs (render data config v).2 !! id in
  (id ∈ roster data → is_Some after)
  ∧ (id ∉ roster data →
     match Viewer.participantRefs v !! id with
     | Some refs => ∃ more, after = Some (refs ++ more)
     | None => after = None
     end).
Proof.
  cbn zeta. rewrite render_state.
  pose proof (renderStages_keeps data [] (ViewerData.stages data)
                (renderSetup data config v).2) as [_ _ _ _ Hrefs].
  specialize (Hrefs id). rewrite renderSetup_run in Hrefs |- *. cbn [snd] in Hrefs |- *.
  cbn [Viewer.participantRefs] in Hrefs. rewrite resetAll_lookup in Hrefs.
  split.
  - intros Hin. rewrite bool_decide_eq_true_2 in Hrefs by done.
    destruct Hrefs as [more ->]. eauto.
  - intros Hout. by rewrite bool_decide_eq_false_2 in Hrefs by done.
Qed.

Lemma render_hover_ids_witness :
  let after := Viewer.participantRefs (render emptyData None cupViewer).2 !! 1 in
  ∃ more, after = Some ([0; 4]%nat ++ more).
Proof.
  refine (proj2 (render_hover_ids emptyData None cupViewer 1) _).
  intros Hin. unfold roster in Hin. cbn in Hin. by apply elem_of_nil in Hin.
Defined.

(** With hover highlighting off, the hover index is left alone. *)
Definition silent (v v' : Viewer.t) : Prop :=
  quiet v → quiet v' ∧ Viewer.participantRefs v' = Viewer.participantRefs v.

Global Instance silent_preorder : PreOrder silent.
Proof.
  split.
  - by intros v Hv.
  - intros v1 v2 v3 H12 H23 Hv. destruct (H12 Hv) as [Hv2 E12].
    destruct (H23 Hv2) as [Hv3 E23]. split; [done | congruence].
Qed.

Section Silent.
Context `{Lang, Helpers, DomBackend}.

Lemma createElement_silent : preserves silent createElement.
Proof. by intros v Hv. Qed.

Lemma setupMouseHover_silent id element : preserves silent (setupMouseHover id element).
Proof.
  intros v Hv. unfold setupMouseHover, bind, get. cbn. red in Hv. rewrite Hv. by cbn.
Qed.

Lemma renderStage_silent root data : preserves silent (renderStage root data).
Proof.
  unfold renderStage, renderRoundRobin, renderElimination, renderSingleElimination,
    renderDoubleElimination, renderBracket, renderFinal, createRanking, createRankingRow,
    createBracketMatch, createFinalMatch, createMatch, createParticipant,
    renderParticipant, renderParticipantImage, renderParticipantOrigin, renderHint.
  frame; auto using createElement_silent, setupMouseHover_silent.
Qed.

Lemma renderStages_silent data root stages :
  preserves silent (renderStages data root stages).
Proof. unfold renderStages. frame. apply renderStage_silent. Qed.
End Silent.

(** With [highlightParticipantOnHover] set to false, a call of [render]
    registers no element, whether it returns or throws: it leaves the hover
    index with an empty list for each participant of the roster and the other
    entries as they were. *)
Theorem render_quiet_index `{Lang, Helpers, DomBackend}
    (data : ViewerData.t) (config : option PartialConfig.t) (v : Viewer.t) :
  config ≫= PartialConfig.highlightParticipantOnHover = Some false →
  Viewer.participantRefs (render data config v).2
  = resetAll (ViewerData.participants data) (Viewer.participantRefs v).
Proof.
  intros Hoff. rewrite render_state.
  pose proof (renderStages_silent data [] (ViewerData.stages data)
                (renderSetup data config v).2) as Hsilent.
  rewrite renderSetup_run in Hsilent |- *. cbn [snd] in Hsilent |- *.
  destruct Hsilent as [_ ->]; [|done].
  unfold quiet, resolveConfig. cbn. by rewrite Hoff.
Qed.

Lemma render_quiet_index_witness :
  Viewer.participantRefs (render Sample.cup (Some Sample.noHover) newViewer).2
  = resetAll (ViewerData.participants Sample.cup) ∅.
Proof. apply (render_quiet_index Sample.cup (Some Sample.noHover) newViewer). reflexivity. Defined.

(** ** The stage in force *)

(** While and after a stage is processed, [skipFirstRound] is the setting of
    that stage, [false] if the stage does not give it: the setting of an
    earlier stage is never in force. *)
Theorem renderStage_skipFirstRound `{Lang, Helpers, DomBackend}
    (root : list Dom.Node) (data : ViewerData.t) (stage : Stage.t) (v : Viewer.t) :
  ViewerData.stages data !! 0%nat = Some stage →
  Viewer.skipFirstRound (renderStage root data v).2
  = default false (Stage.skipFirstRound stage).
Proof.
  intros Hstage. unfold renderStage, index. rewrite Hstage.
  unfold bind at 1. cbn [ret]. unfold bind at 1. cbn [modify].
  set (v1 := set_skipFirstRound _ v).
  change (default false (Stage.skipFirstRound stage)) with (Viewer.skipFirstRound v1).
  destruct (bool_decide _).
  - by destruct (renderRoundRobin_extends root stage
                   (splitBy (ViewerData.matches data) Match.group_id) v1).
  - destruct (_ || _); [|done].
    by destruct (renderElimination_extends root stage
                   (splitBy (ViewerData.matches data) Match.group_id) v1).
Qed.

Lemma renderStage_skipFirstRound_witness :
  Viewer.skipFirstRound
    (renderStage [] Sample.cup (set_skipFirstRound true openViewer)).2 = false.
Proof.
  apply (renderStage_skipFirstRound [] Sample.cup (Stage.mk 0 "Cup" "single_elimination" None)).
  reflexivity.
Defined.

(** ** The upper bracket of a final *)

Definition upperBracketError : Exn := Error "Upper bracket not found.".

Lemma throwsOnly_weaken {A} (P Q : Exn → Prop) (m : M A) :
  (∀ e, P e → Q e) → throwsOnly P m → throwsOnly Q m.
Proof. intros Hweak Hm v e He. by apply Hweak, (Hm v). Qed.

Lemma throwsOnly_index_any {A} (P : Exn → Prop) what (xs : list A) i :
  P (TypeError what) → throwsOnly P (index what xs i).
Proof.
  intros HP. unfold index. destruct (xs !! i); [apply throwsOnly_ret | by apply throwsOnly_throw].
Qed.

Lemma hoverError_not_upper e : isHoverError e → e ≠ upperBracketError.
Proof. intros [id ->]. unfold hoverError, upperBracketError. cbn. discriminate. Qed.

Lemma querySelectorBracket_app root more i :
  querySelectorBracket root = Some i → querySelectorBracket (root ++ more) = Some i.
Proof.
  revert i. induction root as [|node root IH]; intros i; [done|].
  destruct node; cbn; try done.
  - destruct (querySelectorBracket root) as [j|]; [|done]. by rewrite (IH j eq_refl).
  - destruct (querySelectorBracket root) as [j|]; [|done]. by rewrite (IH j eq_refl).
Qed.

Lemma querySelectorBracket_snoc root groupId rounds :
  querySelectorBracket (root ++ [Dom.Bracket groupId rounds])
  = Some (default (length root) (querySelectorBracket root)).
Proof.
  induction root as [|node root IH]; [done|].
  destruct node; cbn; try done.
  - rewrite IH. by destruct (querySelectorBracket root).
  - rewrite IH. by destruct (querySelectorBracket root).
Qed.

Section UpperBracket.
Context `{Lang, Helpers, DomBackend}.

Lemma renderFinal_with_bracket root finalType matches :
  querySelectorBracket root ≠ None →
  throwsOnly (λ e, e ≠ upperBracketError) (renderFinal root finalType matches).
Proof.
  intros Hroot. unfold renderFinal, createFinalMatch.
  destruct (querySelectorBracket root); [|done].
  outcome; try (by apply throwsOnly_index_any).
  eapply throwsOnly_weaken; [apply hoverError_not_upper | apply createMatch_throws].
Qed.

Lemma renderBracket_not_upper root matchesByRound roundName bracketType connectFinal' :
  throwsOnly (λ e, e ≠ upperBracketError)
             (renderBracket root matchesByRound roundName bracketType connectFinal').
Proof.
  unfold renderBracket. outcome; try (by apply throwsOnly_index_any).
  eapply throwsOnly_weaken; [apply hoverError_not_upper | apply createBracketMatch_throws].
Qed.

Lemma renderBracket_has_bracket root matchesByRound roundName bracketType connectFinal'
    v root' v' :
  renderBracket root matchesByRound roundName bracketType connectFinal' v
  = (Returned root', v') →
  querySelectorBracket root' ≠ None.
Proof.
  intros Hrun.
  apply renderBracket_returned in Hrun as (groupId & rounds & -> & _).
  by rewrite querySelectorBracket_snoc.
Qed.
End UpperBracket.

(** [renderFinal] throws 'Upper bracket not found.' exactly when the
    fragment holds no bracket, and then the state is left as it was; its two
    callers render a bracket first, so they never throw this error. *)
Theorem upper_bracket_found `{Lang, Helpers, DomBackend}
    (root : list Dom.Node) (finalType : FinalType) (matches : list Match.t)
    (matchesByGroup : list (list Match.t)) (v : Viewer.t) :
  ((renderFinal root finalType matches v).1 = Thrown upperBracketError
   ↔ querySelectorBracket root = None)
  ∧ (querySelectorBracket root = None →
     renderFinal root finalType matches v = (Thrown upperBracketError, v))
  ∧ (renderSingleElimination root matchesByGroup v).1 ≠ Thrown upperBracketError
  ∧ (renderDoubleElimination root matchesByGroup v).1 ≠ Thrown upperBracketError.
Proof.
  assert (querySelectorBracket root = None →
          renderFinal root finalType matches v = (Thrown upperBracketError, v)) as Hnone.
  { intros Hroot. unfold renderFinal. by rewrite Hroot. }
  split; [|split; [done|split]].
  - split.
    + intros Hthrown. destruct (querySelectorBracket root) as [i|] eqn:Hroot; [|done].
      exfalso. eapply (renderFinal_with_bracket root finalType matches); [|exact Hthrown|done].
      by rewrite Hroot.
    + intros Hroot. by rewrite Hnone.
  - unfold renderSingleElimination. intros Hthrown.
    unfold bind at 1 in Hthrown.
    destruct (index _ matchesByGroup 0 v) as [[bracket|e] v1] eqn:Hindex.
    2:{ cbn in Hthrown. unfold index in Hindex.
        destruct (matchesByGroup !! 0%nat); [discriminate|].
        injection Hindex as <- _. discriminate. }
    unfold bind at 1 in Hthrown.
    destruct (renderBracket _ _ _ _ _ v1) as [[root1|e] v2] eqn:Hbracket.
    2:{ cbn in Hthrown. injection Hthrown as ->.
        eapply (renderBracket_not_upper root); [|done]. by rewrite Hbracket. }
    apply renderBracket_has_bracket in Hbracket.
    destruct (matchesByGroup !! 1%nat) as [final|]; [|discriminate].
    by eapply (renderFinal_with_bracket root1).
  - unfold renderDoubleElimination. intros Hthrown.
    unfold bind at 1 in Hthrown.
    destruct (index _ matchesByGroup 0 v) as [[winners|e] v1] eqn:Hindex.
    2:{ cbn in Hthrown. unfold index in Hindex.
        destruct (matchesByGroup !! 0%nat); [discriminate|].
        injection Hindex as <- _. discriminate. }
    unfold bind at 1 in Hthrown.
    destruct (renderBracket _ _ _ _ _ v1) as [[root1|e] v2] eqn:Hbracket.
    2:{ cbn in Hthrown. injection Hthrown as ->.
        eapply (renderBracket_not_upper root); [|done]. by rewrite Hbracket. }
    apply renderBracket_has_bracket in Hbracket.
    unfold bind at 1 in Hthrown.
    assert (∃ o v3, (match matchesByGroup !! 1%nat with
                     | Some losers =>
                         renderBracket root1 (splitBy losers Match.round_id)
                                       getLoserBracketRoundName LoserBracket None
                     | None => ret root1
                     end) v2 = (o, v3)
                    ∧ match o with
                      | Returned root2 => querySelectorBracket root2 ≠ None
                      | Thrown e => e ≠ upperBracketError
                      end) as (o & v3 & Hlosers & Ho).
    { destruct (matchesByGroup !! 1%nat) as [losers|].
      - destruct (renderBracket root1 _ _ _ _ v2) as [[root2|e] v3] eqn:Hlosers.
        + eexists _, _. split; [done|]. by apply renderBracket_has_bracket in Hlosers.
        + eexists _, _. split; [done|].
          intros ->. eapply (renderBracket_not_upper root1); [|done]. by rewrite Hlosers.
      - eexists _, _. split; [done|]. done. }
    rewrite Hlosers in Hthrown. destruct o as [root2|e].
    + destruct (matchesByGroup !! 2%nat) as [final|]; [|discriminate].
      by eapply (renderFinal_with_bracket root2).
    + cbn in Hthrown. by injection Hthrown as ->.
Qed.

Lemma upper_bracket_found_witness :
  renderFinal [Dom.Title "Cup"] ConsolationFinal [Sample.consolation] cupViewer
  = (Thrown upperBracketError, cupViewer).
Proof.
  exact (proj1 (proj2 (upper_bracket_found [Dom.Title "Cup"] ConsolationFinal
                         [Sample.consolation] [] cupViewer)) eq_refl).
Defined.

Lemma querySelectorBracket_lookup root i :
  querySelectorBracket root = Some i →
  ∃ groupId rounds, root !! i = Some (Dom.Bracket groupId rounds).
Proof.
  revert i. induction root as [|node root IH]; intros i; [done|].
  destruct node; cbn.
  - destruct (querySelectorBracket root) as [j|]; [|done]. intros [= <-]. by apply IH.
  - destruct (querySelectorBracket root) as [j|]; [|done]. intros [= <-]. by apply IH.
  - intros [= <-]. eauto.
Qed.

(** Where the rounds of a final group go, once a bracket was appended to
    the fragment: to the first bracket that the fragment held before, if there
    was one, and to the appended bracket otherwise. *)
Lemma renderFinal_after_bracket `{Lang, Helpers, DomBackend}
    root groupId rounds finalType matches v root' v' :
  renderFinal (root ++ [Dom.Bracket groupId rounds]) finalType matches v
  = (Returned root', v') →
  ∃ first extra,
    matches !! 0%nat = Some first
    ∧ Forall2 shows (take (displayCount (Match.opponent1 first)) matches) extra
    ∧ match querySelectorBracket root with
      | Some earlier =>
          (∃ groupId' rounds',
             root !! earlier = Some (Dom.Bracket groupId' rounds')
             ∧ root' !! earlier = Some (Dom.Bracket groupId' (rounds' ++ extra)))
          ∧ root' !! length root = Some (Dom.Bracket groupId rounds)
      | None => root' !! length root = Some (Dom.Bracket groupId (rounds ++ extra))
      end.
Proof.
  intros Hrun.
  apply renderFinal_altered in Hrun as (j & first & extra & Hj & Hfirst & -> & Hshows).
  exists first, extra. split; [done|]. split; [done|].
  rewrite querySelectorBracket_snoc in Hj. injection Hj as <-.
  destruct (querySelectorBracket root) as [earlier|] eqn:Hroot; cbn.
  - destruct (querySelectorBracket_lookup root earlier Hroot) as (groupId' & rounds' & Hnode).
    pose proof (lookup_lt_Some _ _ _ Hnode) as Hlt. split.
    + exists groupId', rounds'. split; [done|].
      rewrite list_lookup_alter, decide_True by done.
      by rewrite lookup_app_l, Hnode by done.
    + rewrite list_lookup_alter_ne by lia. by apply list_lookup_middle.
  - rewrite list_lookup_alter, decide_True by done.
    by rewrite list_lookup_middle.
Qed.

(** The consolation final of a single elimination is appended to the first
    bracket of the whole fragment: to the bracket of an earlier stage if the
    fragment holds one, which leaves the bracket of this stage with its own
    rounds only; to the bracket of this stage otherwise. *)
Theorem consolation_final_placement `{Lang, Helpers, DomBackend}
    (root : list Dom.Node) (matchesByGroup : list (list Match.t)) (final : list Match.t)
    (v : Viewer.t) (root' : list Dom.Node) (v' : Viewer.t) :
  renderSingleElimination root matchesByGroup v = (Returned root', v') →
  matchesByGroup !! 1%nat = Some final →
  ∃ bracket groupId rounds first extra,
    matchesByGroup !! 0%nat = Some bracket
    ∧ length rounds = length (splitBy bracket Match.round_id)
    ∧ final !! 0%nat = Some first
    ∧ Forall2 shows (take (displayCount (Match.opponent1 first)) final) extra
    ∧ match querySelectorBracket root with
      | Some earlier =>
          (∃ groupId' rounds',
             root !! earlier = Some (Dom.Bracket groupId' rounds')
             ∧ root' !! earlier = Some (Dom.Bracket groupId' (rounds' ++ extra)))
          ∧ root' !! length root = Some (Dom.Bracket groupId rounds)
      | None => root' !! length root = Some (Dom.Bracket groupId (rounds ++ extra))
      end.
Proof.
  unfold renderSingleElimination. intros Hrun Hfinal.
  apply bind_inv_returned in Hrun as (bracket & v1 & Hbracket & Hrun).
  apply bind_inv_returned in Hrun as (root1 & v2 & Hrender & Hrun).
  unfold index in Hbracket.
  destruct (matchesByGroup !! 0%nat) as [b|] eqn:Hb; [|discriminate].
  injection Hbracket as -> ->. rewrite Hfinal in Hrun.
  apply renderBracket_returned in Hrender as (groupId & rounds & -> & Hlen & _).
  apply renderFinal_after_bracket in Hrun as (first & extra & Hfirst & Hshows & Hplace).
  by exists bracket, groupId, rounds, first, extra.
Qed.

(** The grand final of a double elimination is appended to the first
    bracket of the whole fragment: to the bracket of an earlier stage if the
    fragment holds one; otherwise to the winner bracket of this stage, never
    to its loser bracket. *)
Theorem grand_final_placement `{Lang, Helpers, DomBackend}
    (root : list Dom.Node) (matchesByGroup : list (list Match.t)) (final : list Match.t)
    (v : Viewer.t) (root' : list Dom.Node) (v' : Viewer.t) :
  renderDoubleElimination root matchesByGroup v = (Returned root', v') →
  matchesByGroup !! 2%nat = Some final →
  ∃ winners losers groupId rounds groupId' rounds' first extra,
    matchesByGroup !! 0%nat = Some winners
    ∧ matchesByGroup !! 1%nat = Some losers
    ∧ length rounds = length (splitBy winners Match.round_id)
    ∧ length rounds' = length (splitBy losers Match.round_id)
    ∧ final !! 0%nat = Some first
    ∧ Forall2 shows (take (displayCount (Match.opponent1 first)) final) extra
    ∧ root' !! S (length root) = Some (Dom.Bracket groupId' rounds')
    ∧ match querySelectorBracket root with
      | Some earlier =>
          (∃ groupId0 rounds0,
             root !! earlier = Some (Dom.Bracket groupId0 rounds0)
             ∧ root' !! earlier = Some (Dom.Bracket groupId0 (rounds0 ++ extra)))
          ∧ root' !! length root = Some (Dom.Bracket groupId rounds)
      | None => root' !! length root = Some (Dom.Bracket groupId (rounds ++ extra))
      end.
Proof.
  unfold renderDoubleElimination. intros Hrun Hfinal.
  apply bind_inv_returned in Hrun as (winners & v1 & Hwinners & Hrun).
  apply bind_inv_returned in Hrun as (root1 & v2 & Hrender & Hrun).
  apply bind_inv_returned in Hrun as (root2 & v3 & Hlosers & Hrun).
  unfold index in Hwinners.
  destruct (matchesByGroup !! 0%nat) as [w|] eqn:Hw; [|discriminate].
  injection Hwinners as -> ->. rewrite Hfinal in Hrun.
  destruct (matchesByGroup !! 1%nat) as [losers|] eqn:Hl.
  2:{ apply lookup_ge_None in Hl. apply lookup_lt_Some in Hfinal. lia. }
  apply renderBracket_returned in Hrender as (groupId & rounds & -> & Hlen & _).
  apply renderBracket_returned in Hlosers as (groupId' & rounds' & -> & Hlen' & _).
  apply renderFinal_altered in Hrun as (j & first & extra & Hj & Hfirst & -> & Hshows).
  exists winners, losers, groupId, rounds, groupId', rounds', first, extra.
  repeat (split; [done|]).
  rewrite (querySelectorBracket_app _ [Dom.Bracket groupId' rounds']
             (default (length root) (querySelectorBracket root)))
    in Hj by apply querySelectorBracket_snoc.
  injection Hj as <-.
  assert (default (length root) (querySelectorBracket root) ≤ length root)%nat as Hle.
  { destruct (querySelectorBracket root) as [earlier|] eqn:Hroot; [|done].
    destruct (querySelectorBracket_lookup root earlier Hroot) as (? & ? & Hnode).
    apply lookup_lt_Some in Hnode. cbn. lia. }
  split.
  - rewrite list_lookup_alter_ne by lia.
    replace (S (length root)) with (length (root ++ [Dom.Bracket groupId rounds]))
      by (rewrite length_app; simpl; lia).
    by apply list_lookup_middle.
  - destruct (querySelectorBracket root) as [earlier|] eqn:Hroot; cbn in *.
    + destruct (querySelectorBracket_lookup root earlier Hroot) as (groupId0 & rounds0 & Hnode).
      pose proof (lookup_lt_Some _ _ _ Hnode) as Hlt. split.
      * exists groupId0, rounds0. split; [done|].
        rewrite list_lookup_alter, decide_True by done.
        rewrite <- app_assoc, lookup_app_l by done. by rewrite Hnode.
      * rewrite list_lookup_alter_ne by lia. rewrite <- app_assoc.
        by apply list_lookup_middle.
    + rewrite list_lookup_alter, decide_True by done. rewrite <- app_assoc.
      cbn [app]. by rewrite list_lookup_middle.
Qed.

(** A second stage, a cup with a match for the third place, rendered into
    the fragment that holds the sample cup. *)
Definition secondCupGroups : list (list Match.t) :=
  splitBy (ViewerData.matches Sample.cup ++ [Sample.consolation]) Match.group_id.

Definition secondCupRun : Outcome (list Dom.Node) * Viewer.t :=
  renderSingleElimination (cupRoot ++ [Dom.Title "Second cup"]) secondCupGroups cupViewer.

Lemma consolation_final_placement_witness :
  ∃ bracket groupId rounds first extra,
    secondCupGroups !! 0%nat = Some bracket
    ∧ length rounds = length (splitBy bracket Match.round_id)
    ∧ [Sample.consolation] !! 0%nat = Some first
    ∧ Forall2 shows (take (displayCount (Match.opponent1 first)) [Sample.consolation]) extra
    ∧ match querySelectorBracket (cupRoot ++ [Dom.Title "Second cup"]) with
      | Some earlier =>
          (∃ groupId' rounds',
             (cupRoot ++ [Dom.Title "Second cup"]) !! earlier
             = Some (Dom.Bracket groupId' rounds')
             ∧ fragment secondCupRun !! earlier = Some (Dom.Bracket groupId' (rounds' ++ extra)))
          ∧ fragment secondCupRun !! length (cupRoot ++ [Dom.Title "Second cup"])
            = Some (Dom.Bracket groupId rounds)
      | None => fragment secondCupRun !! length (cupRoot ++ [Dom.Title "Second cup"])
                = Some (Dom.Bracket groupId (rounds ++ extra))
      end.
Proof.
  apply (consolation_final_placement (cupRoot ++ [Dom.Title "Second cup"]) secondCupGroups
           [Sample.consolation] cupViewer (fragment secondCupRun) secondCupRun.2).
  - vm_compute. reflexivity.
  - reflexivity.
Defined.

(** In the sample, the match for the third place of the second cup shows
    up as a third round of the bracket of the first cup. *)
Example secondCup_rounds :
  match fragment secondCupRun with
  | [_; Dom.Bracket _ first; _; Dom.Bracket _ second] =>
      Dom.roundName <$> first = ["Round 1"; "Final"; "Consolation Final"]
      ∧ Dom.roundName <$> second = ["Round 1"; "Final"]
  | _ => False
  end.
Proof. vm_compute. done. Qed.

Lemma grand_final_placement_witness :
  ∃ winners losers groupId rounds groupId' rounds' first extra,
    openGroups !! 0%nat = Some winners
    ∧ openGroups !! 1%nat = Some losers
    ∧ length rounds = length (splitBy winners Match.round_id)
    ∧ length rounds' = length (splitBy losers Match.round_id)
    ∧ default [] (openGroups !! 2%nat) !! 0%nat = Some first
    ∧ Forall2 shows (take (displayCount (Match.opponent1 first))
                          (default [] (openGroups !! 2%nat))) extra
    ∧ fragment openRun !! 2%nat = Some (Dom.Bracket groupId' rounds')
    ∧ fragment openRun !! 1%nat = Some (Dom.Bracket groupId (rounds ++ extra)).
Proof.
  apply (grand_final_placement [Dom.Title "Open"] openGroups
           (default [] (openGroups !! 2%nat))
           (renderSetup Sample.open None newViewer).2 (fragment openRun) openRun.2).
  - vm_compute. reflexivity.
  - reflexivity.
Defined.

(** ** The label of a match *)

Lemma append_nonempty (a b : string) : b ≠ "" → a +:+ b ≠ "".
Proof. intros Hb. destruct a; [done|]. cbn. discriminate. Qed.

Lemma append_assoc (a b c : string) : (a +:+ b) +:+ c = a +:+ (b +:+ c).
Proof.
  induction a as [|x a IH]; [done|].
  change (String x ((a +:+ b) +:+ c) = String x (a +:+ (b +:+ c))). by rewrite IH.
Qed.

Lemma append_empty (a : string) : a +:+ "" = a.
Proof.
  induction a as [|x a IH]; [done|].
  change (String x (a +:+ "") = String x a). by rewrite IH.
Qed.

Section Labels.
Context `{Lang, Helpers, DomBackend}.

(** The element that [createMatch] returns. *)
Lemma createMatch_element match_ location connection label hint roundNumber v element v' :
  createMatch match_ location connection label hint roundNumber v = (Returned element, v') →
  let separated := Config.separatedChildCountLabel (Viewer.config v) in
  let childCount := Match.child_count match_ in
  Dom.handle (Dom.participant1 element) = Viewer.created v
  ∧ Dom.handle (Dom.participant2 element) = S (Viewer.created v)
  ∧ Viewer.created v' = S (S (Viewer.created v))
  ∧ Dom.label element
    = match label with
      | Some text =>
          if bool_decide (text = "") then None
          else Some (if bool_decide (0 < childCount) && negb separated
                     then text +:+ ", " +:+ bestOfX childCount else text,
                     getMatchStatus (Match.status match_))
      | None => None
      end
  ∧ Dom.childCountLabel element
    = if bool_decide (0 < childCount) && separated then Some (bestOfX childCount) else None.
Proof.
  intros Hrun separated childCount. subst separated childCount.
  unfold createMatch in Hrun.
  apply bind_inv_returned in Hrun as (p1 & v1 & Hp1 & Hrun).
  apply bind_inv_returned in Hrun as (p2 & v2 & Hp2 & Hrun).
  apply bind_inv_returned in Hrun as (w & ? & [= <- <-] & Hrun).
  injection Hrun as <- <-. cbn.
  pose proof (createParticipant_extends (Match.opponent1 match_) hint location roundNumber v)
    as [[Hc1 _ _ _ _] _].
  pose proof (createParticipant_extends (Match.opponent2 match_) hint location roundNumber v1)
    as [[Hc2 _ _ _ _] _].
  rewrite Hp1 in Hc1. rewrite Hp2 in Hc2. cbn [snd] in Hc1, Hc2.
  apply createParticipant_handle in Hp1 as (Hh1 & Hn1).
  apply createParticipant_handle in Hp2 as (Hh2 & Hn2).
  rewrite Hc2, Hc1. repeat split; congruence.
Qed.
End Labels.

(** The label of a match of a bracket that stands for several games
    ([child_count] positive): the text of [getMatchLabel] followed by ', Bo'
    and the count, whatever [separatedChildCountLabel]; when the option is
    off the text of [bestOfX] follows too, and when it is on that text is
    the separate label.  Without games, the label is the text of
    [getMatchLabel], and there is no label at all if this text is empty. *)
Theorem createBracketMatch_label `{Lang, Helpers, DomBackend}
    (roundNumber roundCount : nat) (match_ : Match.t) (matchLocation : BracketType)
    (connectFinal' : option bool) (v : Viewer.t) (element : Dom.MatchElement)
    (v' : Viewer.t) :
  createBracketMatch roundNumber roundCount match_ matchLocation connectFinal' v
  = (Returned element, v') →
  let separated := Config.separatedChildCountLabel (Viewer.config v) in
  let childCount := Match.child_count match_ in
  let text := getMatchLabel (Match.number match_) roundNumber roundCount matchLocation in
  let status := getMatchStatus (Match.status match_) in
  (0 < childCount →
     Dom.label element
     = Some (text +:+ ", Bo" +:+ pretty childCount
             +:+ (if separated then "" else ", " +:+ bestOfX childCount), status)
     ∧ Dom.childCountLabel element = if separated then Some (bestOfX childCount) else None)
  ∧ ((childCount ≤ 0)%Z →
     Dom.label element = (if bool_decide (text = "") then None else Some (text, status))
     ∧ Dom.childCountLabel element = None).
Proof.
  intros Hrun separated childCount text status.
  unfold createBracketMatch in Hrun.
  apply bind_inv_returned in Hrun as (w & ? & [= <- <-] & Hrun).
  apply createMatch_element in Hrun as (_ & _ & _ & Hlabel & Hchild).
  cbn zeta in Hlabel, Hchild. fold separated childCount in Hlabel, Hchild.
  fold text in Hlabel. rewrite Hlabel, Hchild. clear Hlabel Hchild.
  split; intros Hcount.
  - rewrite !(bool_decide_eq_true_2 (0 < childCount)%Z) by done.
    rewrite bool_decide_eq_false_2.
    2:{ apply append_nonempty. discriminate. }
    destruct separated; cbn [andb negb].
    + split; [|done]. by rewrite append_empty.
    + split; [|done]. by rewrite !append_assoc.
  - rewrite !(bool_decide_eq_false_2 (0 < childCount)%Z) by lia. cbn [andb].
    split; [|done]. by rewrite append_empty.
Qed.

(** A match of three games, in the first round of a bracket of two. *)
Definition seriesMatch : Match.t :=
  Match.mk 30 2 1 10 100 1 3 (Sample.opponent 1 None) (Sample.opponent 2 None).

Lemma createBracketMatch_label_witness :
  ∃ element,
    (createBracketMatch 1 2 seriesMatch WinnerBracket None openViewer).1 = Returned element
    ∧ Dom.label element = Some ("M1, Bo3, Bo3", "2")
    ∧ Dom.childCountLabel element = None.
Proof.
  eexists. split; [vm_compute; reflexivity|].
  refine (proj1 (createBracketMatch_label 1 2 seriesMatch WinnerBracket None openViewer _
                   (createBracketMatch 1 2 seriesMatch WinnerBracket None openViewer).2 _) _).
  - vm_compute. reflexivity.
  - reflexivity.
Defined.

(** ** When a bracket is rendered to the end *)

Lemma returnsUnder_bind_ret {A B} (I : Viewer.t → Prop) (a : A) (k : A → M B) :
  returnsUnder I (k a) → returnsUnder I (bind (ret a) k).
Proof. intros Hk v Hv. exact (Hk v Hv). Qed.

Section BracketReturns.
Context `{Lang, Helpers, DomBackend}.

Lemma renderBracket_quiet root matchesByRound roundName bracketType connectFinal' :
  matchesByRound ≠ [] → Forall (λ matches, matches ≠ []) matchesByRound →
  returnsUnder quiet (renderBracket root matchesByRound roundName bracketType connectFinal').
Proof.
  intros Hne Hall. unfold renderBracket.
  destruct matchesByRound as [|firstRound rest] eqn:E; [done|].
  destruct firstRound as [|first others]; [by apply Forall_inv in Hall|].
  rewrite <- E in *. unfold index at 1. rewrite E at 1. cbn [lookup list_lookup].
  apply returnsUnder_bind_ret. unfold index at 1. cbn [lookup list_lookup].
  apply returnsUnder_bind_ret.
  apply returnsUnder_bind; [|intros ?; apply returnsUnder_ret].
  apply returnsUnder_forEach. intros [roundNumber rounds] matches Hin.
  rewrite Forall_forall in Hall. specialize (Hall _ Hin).
  destruct matches as [|m ms]; [done|].
  unfold index. cbn [lookup list_lookup]. apply returnsUnder_bind_ret.
  apply returnsUnder_bind; [|intros ?; apply returnsUnder_ret].
  apply returnsUnder_forEach. intros elements match_ _.
  apply returnsUnder_bind; [apply createBracketMatch_quiet | intros ?; apply returnsUnder_ret].
Qed.
End BracketReturns.

(** [renderBracket] returns only if it is given at least one round and no
    round is empty (otherwise it reads [group_id] or [round_id] of a match
    that is not there); and with hover highlighting off it does return then. *)
Theorem renderBracket_returns `{Lang, Helpers, DomBackend}
    (root : list Dom.Node) (matchesByRound : list (list Match.t))
    (roundName : nat → nat → string) (bracketType : BracketType)
    (connectFinal' : option bool) (v : Viewer.t) :
  let run := renderBracket root matchesByRound roundName bracketType connectFinal' v in
  let wellFormed := matchesByRound ≠ [] ∧ Forall (λ matches, matches ≠ []) matchesByRound in
  ((∃ root', run.1 = Returned root') → wellFormed)
  ∧ (matchesByRound = [] → run = (Thrown (TypeError "matchesByRound[0]"), v))
  ∧ (quiet v → wellFormed → ∃ root', run.1 = Returned root').
Proof.
  intros run wellFormed. subst run wellFormed. split; [|split].
  - intros [root' Hrun].
    destruct (renderBracket _ _ _ _ _ _) as [o v'] eqn:E. cbn in Hrun. subst o.
    apply renderBracket_returned in E as (groupId & rounds & _ & Hlen & Hne & Hrounds).
    split; [done|]. apply Forall_forall. intros matches Hin.
    apply list_elem_of_lookup in Hin as [i Hi].
    destruct (lookup_lt_is_Some_2 rounds i) as [round Hround].
    { rewrite Hlen. by eapply lookup_lt_Some. }
    by destruct (Hrounds i matches round Hi Hround).
  - by intros ->.
  - intros Hquiet [Hne Hall].
    destruct (renderBracket_quiet root matchesByRound roundName bracketType connectFinal'
                Hne Hall v Hquiet) as (root' & Hrun & _).
    by exists root'.
Qed.

Lemma renderBracket_returns_witness :
  ∃ root',
    (renderBracket [] (splitBy (ViewerData.matches Sample.cup) Match.round_id)
                   getRoundName SingleBracket None
                   (renderSetup Sample.cup (Some Sample.noHover) newViewer).2).1
    = Returned root'.
Proof.
  refine (proj2 (proj2 (renderBracket_returns [] _ getRoundName SingleBracket None
                          (renderSetup Sample.cup (Some Sample.noHover) newViewer).2)) _ _).
  - reflexivity.
  - split; [by vm_compute|]. vm_compute. repeat constructor; discriminate.
Defined.

(** ** A round-robin stage *)

(** A loop that appends one result for each element. *)
Lemma forEach_appending (R : relation Viewer.t) `{!PreOrder R} {A B}
    (body : list B → A → M (list B)) (Q : Viewer.t → A → B → Prop) xs :
  (∀ acc x, preserves R (body acc x)) →
  (∀ acc x w acc' w', body acc x w = (Returned acc', w') →
     ∃ b, acc' = acc ++ [b] ∧ Q w x b) →
  ∀ acc v out v',
    forEach body acc xs v = (Returned out, v') →
    ∃ new, out = acc ++ new ∧ Forall2 (λ x b, ∃ w, R v w ∧ Q w x b) xs new.
Proof.
  intros Hframe Hbody. induction xs as [|x xs IH]; intros acc v out v'; simpl.
  - intros [= <- <-]. exists []. by rewrite app_nil_r.
  - intros Hrun. apply bind_inv_returned in Hrun as (acc1 & v1 & Hx & Hrest).
    pose proof (Hframe acc x v) as Hstep. rewrite Hx in Hstep. cbn in Hstep.
    destruct (Hbody _ _ _ _ _ Hx) as (b & -> & HQ).
    destruct (IH _ _ _ _ Hrest) as (new & -> & Hall).
    exists (b :: new). split; [by rewrite <- app_assoc|].
    constructor; [exists v; split; [reflexivity | done]|].
    eapply Forall2_impl; [exact Hall|]. intros y c (w & Hw & Hy).
    exists w. split; [by etrans | done].
Qed.

(** The text of the cell of a ranking row for the property [prop]: the name
    of the participant for the property 'id' when the id is one of the
    participants, the value otherwise. *)
Definition rankingCellText (participants : list Participant.t) (prop : string) (data : Z)
    : string :=
  if bool_decide (prop = "id") then
    match List.find (λ participant, bool_decide (Participant.id participant = data))
                    participants with
    | Some participant => Participant.name participant
    | None => pretty data
    end
  else pretty data.

Section RoundRobin.
Context `{Lang, Helpers, DomBackend}.

Lemma createRankingRow_returned item v row v' :
  createRankingRow item v = (Returned row, v') →
  Forall2 (λ '(prop, data) cell,
             Dom.cellText cell = rankingCellText (Viewer.participants v) prop data)
          item row.
Proof.
  unfold createRankingRow. intros Hrun.
  eapply (forEach_appending extends _
            (λ w '(prop, data) cell,
               Dom.cellText cell = rankingCellText (Viewer.participants w) prop data))
    in Hrun as (new & -> & Hall).
  - eapply Forall2_impl; [exact Hall|].
    intros [prop data] cell (w & [[_ Hparticipants _ _ _] _] & Hcell).
    by rewrite <- Hparticipants.
  - intros acc [prop data]. frame; auto using createElement_extends, setupMouseHover_extends.
  - intros acc [prop data] w acc' w' Hbody. cbn beta iota in Hbody.
    apply bind_inv_returned in Hbody as (w0 & ? & [= <- <-] & Hbody).
    unfold rankingCellText.
    destruct (bool_decide (prop = "id")).
    + destruct (List.find _ _) as [participant|].
      * apply bind_inv_returned in Hbody as (cell & w1 & _ & Hbody).
        apply bind_inv_returned in Hbody as ([] & w2 & _ & [= <- _]). eauto.
      * apply bind_inv_returned in Hbody as (cell & w1 & _ & [= <- _]). eauto.
    + apply bind_inv_returned in Hbody as (cell & w1 & _ & [= <- _]). eauto.
Qed.

Lemma createRanking_returned matches v table v' :
  createRanking matches v = (Returned table, v') →
  Dom.headers table = getRanking matches
  ∧ Forall2 (λ item row,
               Forall2 (λ '(prop, data) cell,
                          Dom.cellText cell
                          = rankingCellText (Viewer.participants v) prop data)
                       item row)
            (getRanking matches) (Dom.rows table).
Proof.
  unfold createRanking. intros Hrun.
  apply bind_inv_returned in Hrun as (rows & v1 & Hrows & [= <- _]).
  eapply (forEach_collect extends createRankingRow) in Hrows as (new & -> & Hall);
    [|intros ?; apply createRankingRow_extends].
  split; [done|]. cbn. eapply Forall2_impl; [exact Hall|].
  intros item row (w & w' & [[_ Hparticipants _ _ _] _] & Hrow).
  apply createRankingRow_returned in Hrow. by rewrite Hparticipants in Hrow.
Qed.
End RoundRobin.

(** The ranking table of a group: its header is made from the ranking that
    [getRanking] computes from the matches, and it has one row for each item of
    the ranking, in order, with one cell for each property of the item, in
    order; the cell of the property 'id' shows the name of the participant
    when the id is one of the participants, every other cell shows the value. *)
Theorem createRanking_table `{Lang, Helpers, DomBackend}
    (matches : list Match.t) (v : Viewer.t) (table : Dom.Table) (v' : Viewer.t) :
  createRanking matches v = (Returned table, v') →
  Dom.headers table = getRanking matches
  ∧ map (map Dom.cellText) (Dom.rows table)
    = map (λ item : list (string * Z),
             map (λ '(prop, data), rankingCellText (Viewer.participants v) prop data) item)
          (getRanking matches).
Proof.
  intros Hrun. apply createRanking_returned in Hrun as [Hheaders Hrows].
  split; [done|]. clear Hheaders.
  induction Hrows as [|item row items rows Hrow _ IH]; [done|].
  cbn. f_equal; [|exact IH]. clear IH.
  induction Hrow as [|[prop data] cell item row Hcell _ IH]; [done|].
  cbn. by rewrite Hcell, IH.
Qed.

Lemma createRanking_table_witness :
  ∃ table,
    (createRanking (ViewerData.matches Sample.cup) cupViewer).1 = Returned table
    ∧ map (map Dom.cellText) (Dom.rows table)
      = [["b"; "0"]; ["d"; "0"]; ["a"; "1"]; ["c"; "1"]].
Proof.
  eexists. split; [vm_compute; reflexivity|].
  refine (proj2 (createRanking_table (ViewerData.matches Sample.cup) cupViewer _
                   (createRanking (ViewerData.matches Sample.cup) cupViewer).2 _)).
  vm_compute. reflexivity.
Defined.
